(** * ChaiScript_System: the module loader of the ChaiScript engine

    A shallow embedding of [include/chaiscript/language/chaiscript_engine.hpp]
    (class [ChaiScript_System<Eval_Engine>]): [do_eval], [internal_eval],
    [use], [load_file], [eval_file] and [build_eval_system], together with
    the set [loaded_files] and the two mutexes the class owns.

    The parser ([ChaiScript_Parser]), the tree evaluator ([eval_token]) and
    the dispatch engine are collaborators that live in other headers; they
    enter the development as the operations of the class [Eval_Engine],
    mirroring the template parameter of the C++ class. *)

From Stdlib Require Import String Ascii List Bool Arith Lia.
From stdpp Require Import base gmap sets strings pretty.

Local Open Scope string_scope.
Local Open Scope nat_scope.
Local Open Scope list_scope.
Local Open Scope stdpp_scope.

(** ** Strings

    [std::string] is a counted byte string and may contain NUL bytes; it is
    embedded as [string].  [c_str] is what a consumer of [s.c_str()] sees
    when it treats the pointer as a C string: the bytes before the first
    NUL. *)

Definition NUL : ascii := Ascii.zero.

Fixpoint c_str (s : string) : string :=
  match s with
  | EmptyString => EmptyString
  | String c rest => if Ascii.eqb c NUL then EmptyString else String c (c_str rest)
  end.

(** [true] when the string holds no NUL byte. *)
Fixpoint nul_free (s : string) : bool :=
  match s with
  | EmptyString => true
  | String c rest => negb (Ascii.eqb c NUL) && nul_free rest
  end.

(** Line 185 of the header: the bytes read into the vector [v] become the
    returned string through
    [v.empty() ? std::string() : std::string(v.begin(), v.end()).c_str()]. *)
Definition string_of_vector (v : string) : string :=
  match v with
  | EmptyString => EmptyString
  | _ => c_str v
  end.

(** ** Exceptions, results, scripts *)

(** The exceptions that cross [ChaiScript_System].  [Return_Value] is the
    signal thrown by a [return] statement; [runtime_error] is what
    [load_file] throws, and carries the [std::string] its constructor was
    given; [out_of_range] and [bad_boxed_cast] come from [vals.at(0)] and
    [boxed_cast] in [internal_eval]; [Eval_Error] stands for the parse,
    dispatch and type errors of the collaborators. *)
Inductive exception (V : Type) : Type :=
| Return_Value (retval : V)
| runtime_error (what_arg : string)
| out_of_range
| bad_boxed_cast
| Eval_Error (reason : string).

Arguments Return_Value {V} retval.
Arguments runtime_error {V} what_arg.
Arguments out_of_range {V}.
Arguments bad_boxed_cast {V}.
Arguments Eval_Error {V} reason.

Definition is_Return_Value {V} (e : exception V) : bool :=
  match e with
  | Return_Value _ => true
  | _ => false
  end.

(** The message a handler reads through [what()].  [what()] returns a
    [const char *], so the message of a [runtime_error] is its constructor
    argument up to the first NUL byte.  The messages of the other
    exceptions are made outside this header. *)
Definition what {V} (e : exception V) : option string :=
  match e with
  | runtime_error what_arg => Some (c_str what_arg)
  | _ => None
  end.

(** How a call ends: it returns, it throws, the calling thread blocks for
    ever on a lock it holds itself, or the nesting budget of the model ran
    out before the evaluator finished. *)
Inductive result (V A : Type) : Type :=
| Returns (a : A)
| Throws (e : exception V)
| Blocks
| Exhausted.

Arguments Returns {V A} a.
Arguments Throws {V A} e.
Arguments Blocks {V A}.
Arguments Exhausted {V A}.

(** What the evaluation of a syntax tree does to the [ChaiScript_System]
    that runs it.  [build_eval_system] hands the evaluator exactly two
    entry points back into the system: the script functions [use] (line
    230) and [eval] (lines 232-233).  A run of the evaluator is therefore a
    tree of such calls that ends in a value or in a thrown exception.  The
    script language of this header has no exception handler (the reserved
    words hold neither [try] nor [catch]), so an exception leaving [use]
    or [eval] ends the run. *)
Inductive script (V : Type) : Type :=
| Yield (v : V)
| Raise (e : exception V)
| Call_use (filename : string) (k : script V)
| Call_eval (vals : list V) (k : V -> script V).

Arguments Yield {V} v.
Arguments Raise {V} e.
Arguments Call_use {V} filename k.
Arguments Call_eval {V} vals k.

(** [parser.parse(input, fname)] returns [true] and leaves a tree in
    [parser.ast()], returns [false], or throws. *)
Inductive parse_result (V T : Type) : Type :=
| Parse_true (ast : T)
| Parse_false
| Parse_throws (e : exception V).

Arguments Parse_true {V T} ast.
Arguments Parse_false {V T}.
Arguments Parse_throws {V T} e.

(** The collaborators of [ChaiScript_System], none of which is defined in
    this header. *)
Class Eval_Engine : Type := {
  Boxed_Value : Type;
  (** the default-constructed [Boxed_Value value;] of line 40 *)
  void_value : Boxed_Value;
  (** [boxed_cast<std::string>]; [None] is a [bad_boxed_cast] *)
  boxed_cast_string : Boxed_Value -> option string;
  TokenPtr : Type;
  (** [ChaiScript_Parser::parse] on an input and a C-string file name *)
  parser_parse : string -> string -> parse_result Boxed_Value TokenPtr;
  (** [eval_token<Eval_Engine>(engine, ast)] *)
  eval_token : TokenPtr -> script Boxed_Value;
  (** the text of [chaiscript_prelude.hpp] *)
  chaiscript_prelude : string
}.

(** ** The state of a system *)

(** [boost::shared_mutex] as seen by the one thread the model follows:
    not held, held shared [S extra] times, or held exclusively. *)
Inductive shared_mutex : Type :=
| Unlocked
| Read_locked (extra : nat)
| Write_locked.

(** Calls into the collaborators and into the file system, in the order
    the system makes them.  [E_open filename is_open] is the
    [std::ifstream infile(filename.c_str(), ...)] of [load_file] for the
    name [filename]: the path the stream is given is [c_str filename], so
    two names that agree up to their first NUL byte open the same path. *)
Inductive event `{Eval_Engine} : Type :=
| E_add_reserved_word (word : string)
| E_add (name : string)
| E_sync_cache
| E_open (filename : string) (is_open : bool)
| E_parse (input filename : string)
| E_eval_token (ast : TokenPtr).

(** An event together with what the system held when it made the call. *)
Record observation `{Eval_Engine} : Type := Observe {
  ev : event;
  at_loaded : gset string;
  at_use_mutex : nat;
  at_mutex : shared_mutex
}.

Arguments Observe {_} ev at_loaded at_use_mutex at_mutex.

(** The members of the class (lines 21-28) and the world around it.
    [use_mutex] is the number of times the thread holds the
    [boost::recursive_mutex]; [files] maps a C-string path to the bytes of
    the file, [None] when [std::ifstream] cannot open it; [trace] lists the
    observations, newest first. *)
Record System `{Eval_Engine} : Type := Build_System {
  loaded_files : gset string;
  use_mutex : nat;
  mutex : shared_mutex;
  files : string -> option string;
  trace : list observation
}.

Arguments Build_System {_} loaded_files use_mutex mutex files trace.

Section ChaiScript_System.
Context `{E : Eval_Engine}.

Definition M (A : Type) : Type := System -> result Boxed_Value A * System.

Definition ret {A} (a : A) : M A := fun s => (Returns a, s).

Definition throw {A} (e : exception Boxed_Value) : M A := fun s => (Throws e, s).

Definition bind {A B} (m : M A) (k : A -> M B) : M B :=
  fun s =>
    match m s with
    | (Returns a, s') => k a s'
    | (Throws e, s') => (Throws e, s')
    | (Blocks, s') => (Blocks, s')
    | (Exhausted, s') => (Exhausted, s')
    end.

Definition emit (e : event) (s : System) : System :=
  Build_System (loaded_files s) (use_mutex s) (mutex s) (files s)
    (Observe e (loaded_files s) (use_mutex s) (mutex s) :: trace s).

Definition set_mutex (m : shared_mutex) (s : System) : System :=
  Build_System (loaded_files s) (use_mutex s) m (files s) (trace s).

Definition set_use_mutex (n : nat) (s : System) : System :=
  Build_System (loaded_files s) n (mutex s) (files s) (trace s).

(** [loaded_files.insert(filename)] *)
Definition loaded_files_insert (filename : string) (s : System) : System :=
  Build_System ({[filename]} ∪ loaded_files s) (use_mutex s) (mutex s) (files s) (trace s).

(** [boost::unique_lock<boost::shared_mutex> l(mutex)]: a thread that
    already holds the mutex in either mode waits for itself. *)
Definition lock_unique (s : System) : option System :=
  match mutex s with
  | Unlocked => Some (set_mutex Write_locked s)
  | _ => None
  end.

Definition unlock_unique (s : System) : System :=
  match mutex s with
  | Write_locked => set_mutex Unlocked s
  | _ => s
  end.

(** [boost::shared_lock<boost::shared_mutex> l2(mutex)] *)
Definition lock_shared (s : System) : option System :=
  match mutex s with
  | Unlocked => Some (set_mutex (Read_locked 0) s)
  | Read_locked n => Some (set_mutex (Read_locked (S n)) s)
  | Write_locked => None
  end.

Definition unlock_shared (s : System) : System :=
  match mutex s with
  | Read_locked 0 => set_mutex Unlocked s
  | Read_locked (S n) => set_mutex (Read_locked n) s
  | _ => s
  end.

(** [boost::lock_guard<boost::recursive_mutex> l(use_mutex)] and its
    destructor. *)
Definition lock_recursive (s : System) : System := set_use_mutex (S (use_mutex s)) s.

Definition unlock_recursive (s : System) : System := set_use_mutex (pred (use_mutex s)) s.

(** *** [load_file], lines 172-188 *)
Definition load_file (filename : string) : M string :=
  fun s =>
    match files s (c_str filename) with
    | None =>
        (Throws (runtime_error ("Can not open: " +:+ filename)),
         emit (E_open filename false) s)
    | Some v => (Returns (string_of_vector v), emit (E_open filename true) s)
    end.

Section Nesting.
(** The evaluator one nesting level down. *)
Variable eval_rec : script Boxed_Value -> M Boxed_Value.

(** *** [do_eval], lines 34-67

    The [unique_lock] [l] lives until the function is left; it is given
    up early, at line 54, only when the parser returned [true].  The
    handler of line 60 catches [Return_Value] and nothing else. *)
Definition do_eval (input filename : string) : M Boxed_Value :=
  fun s0 =>
    let s1 := emit E_sync_cache s0 in
    match lock_unique s1 with
    | None => (Blocks, s1)
    | Some s2 =>
        let s3 := emit (E_parse input filename) (loaded_files_insert filename s2) in
        match parser_parse input (c_str filename) with
        | Parse_true ast =>
            let s4 := emit (E_eval_token ast) (unlock_unique s3) in
            match eval_rec (eval_token ast) s4 with
            | (Returns value, s5) => (Returns value, emit E_sync_cache s5)
            | (Throws (Return_Value retval), s5) => (Returns retval, emit E_sync_cache s5)
            | (Throws e, s5) => (Throws e, s5)
            | (Blocks, s5) => (Blocks, s5)
            | (Exhausted, s5) => (Exhausted, s5)
            end
        | Parse_false => (Returns void_value, unlock_unique (emit E_sync_cache s3))
        | Parse_throws (Return_Value retval) =>
            (Returns retval, unlock_unique (emit E_sync_cache s3))
        | Parse_throws e => (Throws e, unlock_unique s3)
        end
    end.

(** *** [internal_eval], lines 72-74; the file name is the default
    argument of [do_eval]. *)
Definition internal_eval (vals : list Boxed_Value) : M Boxed_Value :=
  match vals with
  | [] => throw out_of_range
  | v :: _ =>
      match boxed_cast_string v with
      | None => throw bad_boxed_cast
      | Some input => do_eval input "__EVAL__"
      end
  end.

(** *** [eval_file], lines 252-254: the argument [load_file(filename)] is
    evaluated before [do_eval] is entered. *)
Definition eval_file (filename : string) : M Boxed_Value :=
  bind (load_file filename) (fun input => do_eval input filename).

(** *** [use], lines 76-93

    [l] is a [lock_guard]: it holds [use_mutex] until the function is
    left, by return or by exception.  [l2] is given up at line 86 on the
    first-load branch and by its destructor on the other. *)
Definition use (filename : string) : M unit :=
  fun s0 =>
    let s1 := lock_recursive s0 in
    match lock_shared s1 with
    | None => (Blocks, s1)
    | Some s2 =>
        if decide (filename ∉ loaded_files s2) then
          match eval_file filename (unlock_shared s2) with
          | (Returns _, s3) => (Returns tt, unlock_recursive s3)
          | (Throws e, s3) => (Throws e, unlock_recursive s3)
          | (Blocks, s3) => (Blocks, s3)
          | (Exhausted, s3) => (Exhausted, s3)
          end
        else
          (Returns tt, unlock_recursive (unlock_shared (emit E_sync_cache s2)))
    end.

(** One run of the evaluator: the calls it makes into the system. *)
Fixpoint run (sc : script Boxed_Value) : M Boxed_Value :=
  match sc with
  | Yield v => ret v
  | Raise e => throw e
  | Call_use filename k => bind (use filename) (fun _ => run k)
  | Call_eval vals k => bind (internal_eval vals) (fun v => run (k v))
  end.

End Nesting.

(** The evaluator with a budget of [n] nested evaluations. *)
Fixpoint eval_token_n (n : nat) : script Boxed_Value -> M Boxed_Value :=
  match n with
  | O => fun _ s => (Exhausted, s)
  | S n' => run (eval_token_n n')
  end.

(** *** [build_eval_system], lines 193-236 *)
Definition reserved_words : list string :=
  ["def"; "fun"; "while"; "for"; "if"; "else"; "&&"; "||"; ","; ":="; "var";
   "return"; "break"; "true"; "false"; "_"].

(** The names under which lines 213-233 add to the engine; the module of
    line 213 and the four container types stand under the name of what
    they add. *)
Definition registered_names : list string :=
  ["Bootstrap"; "dump_system"; "dump_object"; "is_type"; "type_name";
   "function_exists"; "Vector"; "string"; "Map"; "Pair"; "use"; "eval"].

Definition add_reserved_words (ws : list string) (s : System) : System :=
  fold_left (fun s w => emit (E_add_reserved_word w) s) ws s.

Definition add_all (names : list string) (s : System) : System :=
  fold_left (fun s n => emit (E_add n) s) names s.

Definition build_eval_system (n : nat) : M Boxed_Value :=
  fun s =>
    do_eval (eval_token_n n) chaiscript_prelude "standard prelude"
      (add_all registered_names (add_reserved_words reserved_words s)).

(** A system before its constructor ran, over a given file system. *)
Definition fresh (fs : string -> option string) : System :=
  Build_System ∅ 0 Unlocked fs [].

(** The constructor, line 97. *)
Definition ChaiScript_System (n : nat) (fs : string -> option string) :
    result Boxed_Value Boxed_Value * System :=
  build_eval_system n (fresh fs).

End ChaiScript_System.

(** ** The host entry points *)

Section Host_surface.
Context `{E : Eval_Engine}.
Variable eval_rec : script Boxed_Value -> M Boxed_Value.

(** [operator()], lines 146-149, and the untyped [eval], lines 244-247:
    [do_eval] with its default file name. *)
Definition eval (input : string) : M Boxed_Value := do_eval eval_rec input "__EVAL__".

(** [boxed_cast<T>] applied to a result; the conversion itself is the
    collaborator [cast], [None] when it throws. *)
Definition boxed_cast {T} (cast : Boxed_Value -> option T) (v : Boxed_Value) : M T :=
  match cast v with
  | Some t => ret t
  | None => throw bad_boxed_cast
  end.

(** The typed [eval<T>], lines 238-242. *)
Definition eval_as {T} (cast : Boxed_Value -> option T) (input : string) : M T :=
  bind (do_eval eval_rec input "__EVAL__") (boxed_cast cast).

(** The typed [eval_file<T>], lines 259-262. *)
Definition eval_file_as {T} (cast : Boxed_Value -> option T) (filename : string) : M T :=
  bind (load_file filename)
    (fun input => bind (do_eval eval_rec input filename) (boxed_cast cast)).

End Host_surface.

(** ** [debug_print], lines 162-167 *)

(** The fields of a syntax node that [debug_print] reads. *)
#[local] Unset Elimination Schemes.
Inductive Token : Type :=
| Build_Token (identifier : Z) (text : string) (line column : Z) (children : list Token).
#[local] Set Elimination Schemes.

Definition children_of (t : Token) : list Token :=
  match t with
  | Build_Token _ _ _ _ children => children
  end.

Section Debug_print.
(** [token_type_to_string] is defined with the parser. *)
Variable token_type_to_string : Z -> string.

(** What one call writes before its [std::endl]. *)
Definition debug_line (prepend : string) (identifier : Z) (text : string) (line column : Z) :
    string :=
  prepend +:+ "(" +:+ token_type_to_string identifier +:+ ") " +:+ text +:+ " : "
    +:+ pretty line +:+ ", " +:+ pretty column.

(** The records written to [std::cout], one for each [std::endl], in the
    order they are written. *)
Fixpoint debug_print (t : Token) (prepend : string) : list string :=
  match t with
  | Build_Token identifier text line column children =>
      debug_line prepend identifier text line column
        :: flat_map (fun child => debug_print child (prepend +:+ "  ")) children
  end.

End Debug_print.

(** The number of nodes of a tree. *)
Fixpoint Token_size (t : Token) : nat :=
  match t with
  | Build_Token _ _ _ _ children => S (list_sum (map Token_size children))
  end.

(** ** A small concrete engine

    An instance of the collaborators on which the system can be run: the
    syntax tree of a text is the run it stands for, and the parser knows a
    handful of one-line texts. *)
Module Demo.

Inductive value : Type :=
| Void
| Int (z : Z)
| Str (s : string).

Fixpoint strip_prefix (p s : string) : option string :=
  match p, s with
  | EmptyString, _ => Some s
  | String a p', String b s' => if Ascii.eqb a b then strip_prefix p' s' else None
  | String _ _, EmptyString => None
  end.

Definition parse (input fname : string) : parse_result value (script value) :=
  match input with
  | EmptyString => Parse_false
  | ")" => Parse_throws (Eval_Error "Unparsed input")
  | "return 5" => Parse_true (Raise (Return_Value (Int 5)))
  | "1 + x" => Parse_true (Raise (Eval_Error "Can not find object: x"))
  | _ =>
      match strip_prefix "use " input with
      | Some f => Parse_true (Call_use f (Yield Void))
      | None =>
          match strip_prefix "eval " input with
          | Some t => Parse_true (Call_eval [Str t] (fun v => Yield v))
          | None => Parse_true (Yield (Str input))
          end
      end
  end.

#[export] Instance engine : Eval_Engine := {
  Boxed_Value := value;
  void_value := Void;
  boxed_cast_string := fun v => match v with Str s => Some s | _ => None end;
  TokenPtr := script value;
  parser_parse := parse;
  eval_token := fun ast => ast;
  chaiscript_prelude := "eval prelude"
}.

(** A file system with five files. *)
Definition disk (path : string) : option string :=
  match path with
  | "a.chai" => Some "hello"
  | "self.chai" => Some "use self.chai"
  | "ret.chai" => Some "return 5"
  | "bad.chai" => Some ")"
  | "nul.chai" => Some (String "a" (String "b" (String NUL "cd")))
  | _ => None
  end.

(** A constructed system with a budget of [n] nested evaluations. *)
Definition chai (n : nat) : System := snd (ChaiScript_System n disk).

End Demo.

(** A second concrete engine, whose parser also knows two calls of
    [eval] with a wrong argument list, and a second file system. *)
Module Demo_further.

Definition parse (input fname : string) : parse_result Demo.value (script Demo.value) :=
  match input with
  | "eval()" => Parse_true (Call_eval [] (fun v => Yield v))
  | "eval(5)" => Parse_true (Call_eval [Demo.Int 5] (fun v => Yield v))
  | _ => Demo.parse input fname
  end.

#[export] Instance engine : Eval_Engine := {
  Boxed_Value := Demo.value;
  void_value := Demo.Void;
  boxed_cast_string := fun v => match v with Demo.Str s => Some s | _ => None end;
  TokenPtr := script Demo.value;
  parser_parse := parse;
  eval_token := fun ast => ast;
  chaiscript_prelude := "eval prelude"
}.

Definition disk (path : string) : option string :=
  match path with
  | "empty.chai" => Some EmptyString
  | "ab.chai" => Some "ab"
  | "a.chai" => Some "hello"
  | _ => None
  end.

(** [boxed_cast<int>] on the values of the engine. *)
Definition cast_int (v : Demo.value) : option Z :=
  match v with
  | Demo.Int z => Some z
  | _ => None
  end.

End Demo_further.

(** A third concrete engine: the parser of the first one, but it answers
    [false] where that one throws. *)
Module Demo_quiet.

Definition parse (input fname : string) : parse_result Demo.value (script Demo.value) :=
  match Demo.parse input fname with
  | Parse_throws _ => Parse_false
  | answer => answer
  end.

#[export] Instance engine : Eval_Engine := {
  Boxed_Value := Demo.value;
  void_value := Demo.Void;
  boxed_cast_string := fun v => match v with Demo.Str s => Some s | _ => None end;
  TokenPtr := script Demo.value;
  parser_parse := parse;
  eval_token := fun ast => ast;
  chaiscript_prelude := "eval prelude"
}.

End Demo_quiet.

(** ** Vocabulary of the statements *)

Section Vocabulary.
Context `{E : Eval_Engine}.

(** The state in which [do_eval] calls [eval_token] (line 57): the cache
    was synchronised, the file name interned under the unique lock, the
    parser ran and returned [true], and the lock was given up. *)
Definition at_eval_token (input filename : string) (ast : TokenPtr) (s : System) : System :=
  emit (E_eval_token ast)
    (unlock_unique
       (emit (E_parse input filename)
          (loaded_files_insert filename (set_mutex Write_locked (emit E_sync_cache s))))).

(** The two observations [do_eval] makes before the parser answers. *)
Definition do_eval_prologue (input filename : string) (s : System) : list observation :=
  [Observe (E_parse input filename) ({[filename]} ∪ loaded_files s) (use_mutex s) Write_locked;
   Observe E_sync_cache (loaded_files s) (use_mutex s) Unlocked].

(** The mode of the shared mutex after one more [shared_lock]. *)
Definition shared_once (m : shared_mutex) : shared_mutex :=
  match m with
  | Unlocked => Read_locked 0
  | Read_locked n => Read_locked (S n)
  | Write_locked => Write_locked
  end.

(** A system that did nothing but [engine.sync_cache()] inside [use]. *)
Definition cache_sync_only (s : System) : System :=
  Build_System (loaded_files s) (use_mutex s) (mutex s) (files s)
    (Observe E_sync_cache (loaded_files s) (S (use_mutex s)) (shared_once (mutex s))
       :: trace s).

Definition terminated {A} (r : result Boxed_Value A) : bool :=
  match r with
  | Returns _ | Throws _ => true
  | Blocks | Exhausted => false
  end.

(** What every observation made by a call satisfies, relative to the
    state [s] in which the call started. *)
Definition observation_ok (s : System) (o : observation) : Prop :=
  loaded_files s ⊆ at_loaded o ∧ (use_mutex s ≤ at_use_mutex o)%nat ∧
  match ev o with
  | E_parse _ f => f ∈ at_loaded o ∧ at_mutex o = Write_locked
  | E_eval_token _ => at_mutex o = Unlocked
  | E_open f _ =>
      (f ∉ at_loaded o) ∧ at_mutex o = Unlocked ∧ (use_mutex s < at_use_mutex o)%nat
  | E_sync_cache => True
  | E_add_reserved_word _ => False
  | E_add _ => False
  end.

(** What every call into the system guarantees when it starts with the
    shared mutex not held by the thread. *)
Definition call_ok {A} (s : System) (out : result Boxed_Value A * System) : Prop :=
  fst out ≠ Blocks ∧
  mutex (snd out) = Unlocked ∧
  loaded_files s ⊆ loaded_files (snd out) ∧
  files (snd out) = files s ∧
  (use_mutex s ≤ use_mutex (snd out))%nat ∧
  (terminated (fst out) = true → use_mutex (snd out) = use_mutex s) ∧
  ∃ new, trace (snd out) = new ++ trace s ∧ Forall (observation_ok s) new.

Definition good {A} (m : M A) : Prop :=
  ∀ s, mutex s = Unlocked → call_ok s (m s).

(** The reserved words an engine was given, oldest first. *)
Definition reserved_word_of (e : event) : option string :=
  match e with
  | E_add_reserved_word w => Some w
  | _ => None
  end.

Definition registered_reserved_words (s : System) : list string :=
  omap reserved_word_of (rev (map ev (trace s))).

Definition is_open_of (filename : string) (e : event) : bool :=
  match e with
  | E_open f _ => String.eqb f filename
  | _ => false
  end.

(** The first load through [use] as the specification words it: a first
    call interns the name, and the next call finds it. *)
Definition use_loads_once_for_every_name : Prop :=
  ∀ (n : nat) (filename : string) (s : System),
    mutex s = Unlocked →
    filename ∉ loaded_files s →
    let s1 := snd (use (eval_token_n n) filename s) in
    filename ∈ loaded_files s1 ∧
    use (eval_token_n n) filename s1 = (Returns tt, cache_sync_only s1).

(** The locking of a first load as the specification words it: the file
    read, the parse and the evaluation happen with neither the exclusive
    section of [use] nor a unique lock held. *)
Definition first_load_runs_unlocked : Prop :=
  ∀ (n : nat) (filename : string) (s : System),
    mutex s = Unlocked →
    use_mutex s = 0 →
    filename ∉ loaded_files s →
    ∃ new,
      trace (snd (use (eval_token_n n) filename s)) = new ++ trace s ∧
      Forall (λ o, match ev o with
                   | E_open _ _ | E_parse _ _ | E_eval_token _ =>
                       at_use_mutex o = 0 ∧ at_mutex o ≠ Write_locked
                   | _ => True
                   end) new.

(** [r] is the longest prefix of [v] without a NUL byte. *)
Definition longest_nul_free_prefix (r v : string) : Prop :=
  String.prefix r v = true ∧
  nul_free r = true ∧
  ∀ p, String.prefix p v = true → nul_free p = true → String.prefix p r = true.

(** The calls that reach [loaded_files]: [do_eval] (through [eval] and
    [operator()]), [eval_file], [use] and [internal_eval], each with the
    nesting budget of its evaluator. *)
Inductive system_call : Type :=
| Do_eval (n : nat) (input filename : string)
| Eval_file (n : nat) (filename : string)
| Use (n : nat) (filename : string)
| Internal_eval (n : nat) (vals : list Boxed_Value).

Definition perform (c : system_call) (s : System) : System :=
  match c with
  | Do_eval n input filename => snd (do_eval (eval_token_n n) input filename s)
  | Eval_file n filename => snd (eval_file (eval_token_n n) filename s)
  | Use n filename => snd (use (eval_token_n n) filename s)
  | Internal_eval n vals => snd (internal_eval (eval_token_n n) vals s)
  end.

(** The system after a sequence of calls. *)
Definition lifetime (calls : list system_call) (s : System) : System :=
  fold_left (λ s c, perform c s) calls s.

(** What [do_eval] does with the outcome of its one call of [eval_token]
    (lines 57-66). *)
Definition after_eval_token (out : result Boxed_Value Boxed_Value * System) :
    result Boxed_Value Boxed_Value * System :=
  match out with
  | (Returns value, s5) => (Returns value, emit E_sync_cache s5)
  | (Throws (Return_Value retval), s5) => (Returns retval, emit E_sync_cache s5)
  | (Throws e, s5) => (Throws e, s5)
  | (Blocks, s5) => (Blocks, s5)
  | (Exhausted, s5) => (Exhausted, s5)
  end.

(** What [use] does with the outcome of its call of [eval_file] (lines
    88-93). *)
Definition after_eval_file (out : result Boxed_Value Boxed_Value * System) :
    result Boxed_Value unit * System :=
  match out with
  | (Returns _, s3) => (Returns tt, unlock_recursive s3)
  | (Throws e, s3) => (Throws e, unlock_recursive s3)
  | (Blocks, s3) => (Blocks, s3)
  | (Exhausted, s3) => (Exhausted, s3)
  end.

(** The event is a successful open of the path [path]. *)
Definition opened_path (path : string) (e : event) : bool :=
  match e with
  | E_open g true => String.eqb (c_str g) path
  | _ => false
  end.

(** The number of times the path [path] was opened with success in the
    observations [l]. *)
Definition path_opens (path : string) (l : list observation) : nat :=
  length (List.filter (λ o, opened_path path (ev o)) l).

(** No name whose file was opened in [l] holds a NUL byte: for those
    names the name and the path are the same string. *)
Definition opened_names_hold_no_NUL (l : list observation) : Prop :=
  Forall (λ o, ∀ g, ev o = E_open g true → nul_free g = true) l.

(** The reporting of failures as the specification words it: whenever the
    parser gives no tree, and no return signal either, [do_eval] ends in
    an exception. *)
Definition do_eval_reports_every_failure : Prop :=
  ∀ (eval_rec : script Boxed_Value -> M Boxed_Value) (input filename : string) (s : System),
    mutex s = Unlocked →
    (∀ ast, parser_parse input (c_str filename) ≠ Parse_true ast) →
    (∀ retval, parser_parse input (c_str filename) ≠ Parse_throws (Return_Value retval)) →
    ∃ e, fst (do_eval eval_rec input filename s) = Throws e.

End Vocabulary.

(** ** Vocabulary of the further properties *)

Section Vocabulary_further.
Context `{E : Eval_Engine}.

(** A call that started with [mutex] free did not block, left [mutex]
    free, and, when it returned or threw, left [use_mutex] as it was. *)
Definition balanced {A} (s : System) (out : result Boxed_Value A * System) : Prop :=
  fst out ≠ Blocks ∧
  mutex (snd out) = Unlocked ∧
  (terminated (fst out) = true → use_mutex (snd out) = use_mutex s).

(** The parser was called for the file name [f] in the observations [new]. *)
Definition parsed (f : string) (new : list observation) : Prop :=
  Exists (λ o, ∃ input, ev o = E_parse input f) new.

(** Between [s] and [s'] no name left [loaded_files], and the names that
    entered it are the names that were handed to the parser. *)
Definition interned_by_parse (s s' : System) : Prop :=
  loaded_files s ⊆ loaded_files s' ∧
  ∃ new,
    trace s' = new ++ trace s ∧
    ∀ f, f ∈ loaded_files s' ↔ f ∈ loaded_files s ∨ parsed f new.

(** The number of times the file of the name [f] was opened with success
    in the observations [l]. *)
Definition opened (f : string) (e : event) : bool :=
  match e with
  | E_open g true => String.eqb g f
  | _ => false
  end.

Definition opens (f : string) (l : list observation) : nat :=
  length (List.filter (λ o, opened f (ev o)) l).

(** Between [s] and [s'] no file was opened twice, and the name of every
    file that was opened is in [loaded_files]. *)
Definition loads_once (s s' : System) : Prop :=
  mutex s' = Unlocked ∧
  loaded_files s ⊆ loaded_files s' ∧
  use_mutex s ≤ use_mutex s' ∧
  ∃ new,
    trace s' = new ++ trace s ∧
    Forall (observation_ok s) new ∧
    ∀ f, opens f new ≤ 1 ∧ (opens f new = 1 → f ∈ loaded_files s').

(** The calls that load a file only through [use]. *)
Definition through_use (c : system_call) : bool :=
  match c with
  | Eval_file _ _ => false
  | _ => true
  end.

End Vocabulary_further.

(** ** Proofs *)

Section Strings.

Lemma c_str_nul_free (s : string) : nul_free (c_str s) = true.
Proof.
  induction s as [|c rest IH]; simpl; [reflexivity|].
  destruct (Ascii.eqb c NUL) eqn:Hc; simpl; [reflexivity|].
  rewrite Hc. exact IH.
Qed.

Lemma c_str_is_prefix (s : string) : String.prefix (c_str s) s = true.
Proof.
  induction s as [|c rest IH]; simpl; [reflexivity|].
  destruct (Ascii.eqb c NUL); simpl; [reflexivity|].
  destruct (ascii_dec c c) as [_|Hne]; [exact IH | contradiction].
Qed.

Lemma c_str_longest (s p : string) :
  String.prefix p s = true → nul_free p = true → String.prefix p (c_str s) = true.
Proof.
  revert p. induction s as [|c rest IH]; intros p Hp Hfree.
  - destruct p; simpl in *; [reflexivity | discriminate].
  - destruct p as [|a p']; [simpl; destruct (Ascii.eqb c NUL); reflexivity|].
    simpl in Hp, Hfree.
    destruct (ascii_dec a c) as [->|Hne]; [|discriminate].
    apply andb_true_iff in Hfree as [Hc Hfree].
    simpl. apply negb_true_iff in Hc. rewrite Hc. simpl.
    destruct (ascii_dec c c) as [_|Hne]; [|contradiction].
    apply IH; assumption.
Qed.

Lemma c_str_id (s : string) : nul_free s = true → c_str s = s.
Proof.
  induction s as [|c rest IH]; simpl; intros H; [reflexivity|].
  apply andb_true_iff in H as [Hc H].
  apply negb_true_iff in Hc. rewrite Hc. f_equal. apply IH, H.
Qed.

Lemma c_str_split (s : string) :
  ∃ rest, s = c_str s +:+ rest ∧ (rest = EmptyString ∨ ∃ tail, rest = String NUL tail).
Proof.
  induction s as [|c r IH]; simpl.
  - exists EmptyString. split; [reflexivity | left; reflexivity].
  - destruct (Ascii.eqb c NUL) eqn:Hc.
    + apply Ascii.eqb_eq in Hc as ->. exists (String NUL r). simpl.
      split; [reflexivity | right; eexists; reflexivity].
    + destruct IH as (rest & Heq & Hrest). exists rest. simpl.
      split; [| exact Hrest].
      change (String c r = String c (c_str r +:+ rest)). f_equal. exact Heq.
Qed.

Lemma string_of_vector_c_str (v : string) : string_of_vector v = c_str v.
Proof. destruct v; reflexivity. Qed.

Lemma c_str_append (pre x : string) :
  nul_free pre = true → c_str (pre +:+ x) = pre +:+ c_str x.
Proof.
  induction pre as [|a pre IH]; intros H; [reflexivity|].
  simpl in H. apply andb_true_iff in H as [Ha H]. apply negb_true_iff in Ha.
  change (String a pre +:+ x) with (String a (pre +:+ x)).
  change (String a pre +:+ c_str x) with (String a (pre +:+ c_str x)).
  simpl. rewrite Ha, (IH H). reflexivity.
Qed.

End Strings.

(** Closes [observation_ok] on an observation whose fields are known. *)
Ltac obs_ok :=
  unfold observation_ok; simpl;
  repeat match goal with
         | |- _ ∧ _ => split
         end;
  first [ exact I | reflexivity | assumption | lia | set_solver ].

Section System_facts.
Context `{E : Eval_Engine}.

Lemma observation_ok_weaken (s0 s1 : System) (o : observation) :
  loaded_files s0 ⊆ loaded_files s1 →
  use_mutex s0 ≤ use_mutex s1 →
  observation_ok s1 o → observation_ok s0 o.
Proof.
  unfold observation_ok. intros Hl Hu (H1 & H2 & H3).
  split; [set_solver|]. split; [lia|].
  destruct (ev o); try exact H3.
  destruct H3 as (? & ? & ?). repeat split; [assumption | assumption | lia].
Qed.

Lemma Forall_observation_ok_weaken (s0 s1 : System) (l : list observation) :
  loaded_files s0 ⊆ loaded_files s1 →
  use_mutex s0 ≤ use_mutex s1 →
  Forall (observation_ok s1) l → Forall (observation_ok s0) l.
Proof.
  intros Hl Hu H. eapply Forall_impl; [exact H|].
  intros o. now apply observation_ok_weaken.
Qed.

(** *** The shape of [do_eval] on each answer of the parser *)

Variable eval_rec : script Boxed_Value -> M Boxed_Value.

Lemma do_eval_Parse_true (input filename : string) (ast : TokenPtr) (s : System) :
  mutex s = Unlocked →
  parser_parse input (c_str filename) = Parse_true ast →
  do_eval eval_rec input filename s =
    match eval_rec (eval_token ast) (at_eval_token input filename ast s) with
    | (Returns value, s5) => (Returns value, emit E_sync_cache s5)
    | (Throws (Return_Value retval), s5) => (Returns retval, emit E_sync_cache s5)
    | (Throws e, s5) => (Throws e, s5)
    | (Blocks, s5) => (Blocks, s5)
    | (Exhausted, s5) => (Exhausted, s5)
    end.
Proof.
  intros Hm Hp. unfold do_eval, lock_unique. simpl. rewrite Hm, Hp. reflexivity.
Qed.

Lemma do_eval_Parse_false (input filename : string) (s : System) :
  mutex s = Unlocked →
  parser_parse input (c_str filename) = Parse_false →
  do_eval eval_rec input filename s =
    (Returns void_value,
     unlock_unique
       (emit E_sync_cache
          (emit (E_parse input filename)
             (loaded_files_insert filename (set_mutex Write_locked (emit E_sync_cache s)))))).
Proof.
  intros Hm Hp. unfold do_eval, lock_unique. simpl. rewrite Hm, Hp. reflexivity.
Qed.

Lemma do_eval_Parse_throws (input filename : string) (e : exception Boxed_Value) (s : System) :
  mutex s = Unlocked →
  parser_parse input (c_str filename) = Parse_throws e →
  do_eval eval_rec input filename s =
    match e with
    | Return_Value retval =>
        (Returns retval,
         unlock_unique
           (emit E_sync_cache
              (emit (E_parse input filename)
                 (loaded_files_insert filename
                    (set_mutex Write_locked (emit E_sync_cache s))))))
    | _ =>
        (Throws e,
         unlock_unique
           (emit (E_parse input filename)
              (loaded_files_insert filename (set_mutex Write_locked (emit E_sync_cache s)))))
    end.
Proof.
  intros Hm Hp. unfold do_eval, lock_unique. simpl. rewrite Hm, Hp.
  destruct e; reflexivity.
Qed.

Lemma do_eval_held (input filename : string) (s : System) :
  mutex s ≠ Unlocked →
  do_eval eval_rec input filename s = (Blocks, emit E_sync_cache s).
Proof.
  intros Hm. unfold do_eval, lock_unique. simpl.
  destruct (mutex s); [contradiction | reflexivity | reflexivity].
Qed.

(** *** The call discipline, one nesting level up *)

Hypothesis eval_rec_good : ∀ sc, good (eval_rec sc).

Lemma do_eval_spec (input filename : string) (s : System) :
  mutex s = Unlocked →
  let out := do_eval eval_rec input filename s in
  fst out ≠ Blocks ∧
  mutex (snd out) = Unlocked ∧
  {[filename]} ∪ loaded_files s ⊆ loaded_files (snd out) ∧
  files (snd out) = files s ∧
  use_mutex s ≤ use_mutex (snd out) ∧
  (terminated (fst out) = true → use_mutex (snd out) = use_mutex s) ∧
  ∃ new,
    trace (snd out) = new ++ do_eval_prologue input filename s ++ trace s ∧
    Forall (observation_ok (loaded_files_insert filename s)) new.
Proof.
  intros Hm out. subst out.
  destruct (parser_parse input (c_str filename)) as [ast| |e] eqn:Hp.
  - rewrite (do_eval_Parse_true _ _ ast _ Hm Hp).
    pose proof (eval_rec_good (eval_token ast) (at_eval_token input filename ast s)
                  eq_refl) as Hgood.
    destruct (eval_rec (eval_token ast) (at_eval_token input filename ast s))
      as [r s5].
    destruct Hgood as (Hb & Hm5 & Hl5 & Hf5 & Hu5 & Ht5 & new & Htr & Hnew).
    simpl in Hb, Hm5, Hl5, Hf5, Hu5, Ht5, Htr. rewrite Hm in Htr.
    assert (Hweak : Forall (observation_ok (loaded_files_insert filename s))
                      (new ++ [Observe (E_eval_token ast) ({[filename]} ∪ loaded_files s)
                                 (use_mutex s) Unlocked])).
    { apply Forall_app. split.
      - revert Hnew. apply Forall_observation_ok_weaken; simpl; [set_solver | lia].
      - constructor; [obs_ok | constructor]. }
    assert (Hshape : trace s5 =
                     (new ++ [Observe (E_eval_token ast) ({[filename]} ∪ loaded_files s)
                                (use_mutex s) Unlocked])
                       ++ do_eval_prologue input filename s ++ trace s).
    { rewrite Htr, <- app_assoc. reflexivity. }
    assert (Hsync : observation_ok (loaded_files_insert filename s)
                      (Observe E_sync_cache (loaded_files s5) (use_mutex s5) (mutex s5))).
    { obs_ok. }
    destruct r as [value|e| |]; [| destruct e as [retval| | | |] | |]; simpl;
      (split; [first [discriminate | exact Hb]|]);
      (split; [exact Hm5|]); (split; [exact Hl5|]); (split; [exact Hf5|]);
      (split; [exact Hu5|]); (split; [first [exact Ht5 | discriminate]|]).
    all: try (eexists; split; [exact Hshape | exact Hweak]).
    all: eexists (_ :: _); split; [rewrite Hshape; reflexivity|];
      constructor; [exact Hsync | exact Hweak].
  - rewrite (do_eval_Parse_false _ _ _ Hm Hp). simpl. rewrite Hm.
    split; [discriminate|]. split; [reflexivity|]. split; [set_solver|].
    split; [reflexivity|]. split; [lia|]. split; [reflexivity|].
    eexists [_]. split; [reflexivity|]. constructor; [obs_ok | constructor].
  - rewrite (do_eval_Parse_throws _ _ e _ Hm Hp).
    destruct e; simpl; rewrite Hm;
      (split; [discriminate|]); (split; [reflexivity|]); (split; [set_solver|]);
      (split; [reflexivity|]); (split; [lia|]); (split; [reflexivity|]).
    all: first [ eexists [_]; split; [reflexivity|]; constructor; [obs_ok | constructor]
               | exists []; split; [reflexivity | constructor] ].
Qed.

Lemma do_eval_good (input filename : string) : good (do_eval eval_rec input filename).
Proof.
  intros s Hm.
  destruct (do_eval_spec input filename s Hm) as (Hb & Hm' & Hl & Hf & Hu & Ht & new & Htr & Hnew).
  split; [exact Hb|]. split; [exact Hm'|]. split; [set_solver|].
  split; [exact Hf|]. split; [exact Hu|]. split; [exact Ht|].
  exists (new ++ do_eval_prologue input filename s). split.
  - rewrite Htr, <- app_assoc. reflexivity.
  - apply Forall_app. split.
    + revert Hnew. apply Forall_observation_ok_weaken; simpl; [set_solver | lia].
    + constructor; [obs_ok|]. constructor; [obs_ok | constructor].
Qed.

(** *** [eval_file] and [use] *)

Lemma eval_file_opened (filename v : string) (s : System) :
  files s (c_str filename) = Some v →
  eval_file eval_rec filename s =
    do_eval eval_rec (string_of_vector v) filename (emit (E_open filename true) s).
Proof. intros Hf. unfold eval_file, bind, load_file. rewrite Hf. reflexivity. Qed.

Lemma eval_file_unopened (filename : string) (s : System) :
  files s (c_str filename) = None →
  eval_file eval_rec filename s =
    (Throws (runtime_error ("Can not open: " +:+ filename)), emit (E_open filename false) s).
Proof. intros Hf. unfold eval_file, bind, load_file. rewrite Hf. reflexivity. Qed.

Lemma use_loaded (filename : string) (s : System) :
  filename ∈ loaded_files s →
  mutex s ≠ Write_locked →
  use eval_rec filename s = (Returns tt, cache_sync_only s).
Proof.
  intros Hin Hm. unfold use, lock_shared, cache_sync_only. simpl.
  destruct (mutex s) as [|n|] eqn:Hmx; [| |contradiction]; simpl;
    (rewrite decide_False by (intros Hnin; exact (Hnin Hin)));
    unfold unlock_recursive, unlock_shared; simpl;
    reflexivity.
Qed.

Lemma lock_recursive_unlocked (s : System) :
  mutex s = Unlocked →
  unlock_shared (set_mutex (Read_locked 0) (lock_recursive s)) = lock_recursive s.
Proof.
  intros Hm. unfold unlock_shared, set_mutex, lock_recursive, set_use_mutex. simpl.
  rewrite Hm. reflexivity.
Qed.

Lemma use_absent (filename : string) (s : System) :
  mutex s = Unlocked →
  filename ∉ loaded_files s →
  use eval_rec filename s =
    match eval_file eval_rec filename (lock_recursive s) with
    | (Returns _, s3) => (Returns tt, unlock_recursive s3)
    | (Throws e, s3) => (Throws e, unlock_recursive s3)
    | (Blocks, s3) => (Blocks, s3)
    | (Exhausted, s3) => (Exhausted, s3)
    end.
Proof.
  intros Hm Hnin. unfold use, lock_shared. simpl. rewrite Hm.
  rewrite decide_True by exact Hnin.
  rewrite (lock_recursive_unlocked s Hm). reflexivity.
Qed.

(** The observation of the file being opened by a first load. *)
Lemma use_first_load (filename v : string) (s : System) :
  mutex s = Unlocked →
  filename ∉ loaded_files s →
  files s (c_str filename) = Some v →
  let out := use eval_rec filename s in
  fst out ≠ Blocks ∧
  mutex (snd out) = Unlocked ∧
  {[filename]} ∪ loaded_files s ⊆ loaded_files (snd out) ∧
  files (snd out) = files s ∧
  use_mutex s ≤ use_mutex (snd out) ∧
  (terminated (fst out) = true → use_mutex (snd out) = use_mutex s) ∧
  ∃ new,
    trace (snd out) =
      new ++ do_eval_prologue (string_of_vector v) filename (lock_recursive s)
          ++ Observe (E_open filename true) (loaded_files s) (S (use_mutex s)) Unlocked
          :: trace s ∧
    Forall (observation_ok (loaded_files_insert filename (lock_recursive s))) new.
Proof.
  intros Hm Hnin Hf out. subst out.
  rewrite (use_absent _ _ Hm Hnin).
  rewrite (eval_file_opened filename v) by exact Hf.
  pose proof (do_eval_spec (string_of_vector v) filename
                (emit (E_open filename true) (lock_recursive s)) Hm) as Hspec.
  destruct (do_eval eval_rec (string_of_vector v) filename
              (emit (E_open filename true) (lock_recursive s))) as [r s3].
  destruct Hspec as (Hb & Hm3 & Hl3 & Hf3 & Hu3 & Ht3 & new & Htr & Hnew).
  simpl in Hb, Hm3, Hl3, Hf3, Hu3, Ht3, Htr, Hnew. rewrite Hm in Htr.
  destruct r as [value|e| |]; simpl;
    (split; [first [discriminate | congruence]|]);
    (split; [exact Hm3|]); (split; [exact Hl3|]); (split; [exact Hf3|]);
    (split; [first [specialize (Ht3 eq_refl); lia | lia]|]);
    (split; [first [intros _; specialize (Ht3 eq_refl); lia | discriminate]|]);
    (exists new; split; [exact Htr | exact Hnew]).
Qed.

Lemma use_spec (filename : string) (s : System) :
  mutex s = Unlocked →
  let out := use eval_rec filename s in
  fst out ≠ Blocks ∧
  mutex (snd out) = Unlocked ∧
  loaded_files s ⊆ loaded_files (snd out) ∧
  files (snd out) = files s ∧
  use_mutex s ≤ use_mutex (snd out) ∧
  (terminated (fst out) = true → use_mutex (snd out) = use_mutex s) ∧
  ∃ new,
    trace (snd out) = new ++ trace s ∧
    Forall (λ o, observation_ok s o ∧ use_mutex s < at_use_mutex o) new.
Proof.
  intros Hm out. subst out.
  destruct (decide (filename ∈ loaded_files s)) as [Hin|Hnin].
  - rewrite use_loaded by (try exact Hin; rewrite Hm; discriminate).
    unfold cache_sync_only. simpl.
    split; [discriminate|]. split; [exact Hm|]. split; [set_solver|].
    split; [reflexivity|]. split; [lia|]. split; [reflexivity|].
    eexists [_]. split; [reflexivity|].
    constructor; [|constructor]. split; [obs_ok | simpl; lia].
  - destruct (files s (c_str filename)) as [v|] eqn:Hf.
    + destruct (use_first_load filename v s Hm Hnin Hf)
        as (Hb & Hm' & Hl & Hf' & Hu & Ht & new & Htr & Hnew).
      split; [exact Hb|]. split; [exact Hm'|]. split; [set_solver|].
      split; [exact Hf'|]. split; [exact Hu|]. split; [exact Ht|].
      exists (new ++ do_eval_prologue (string_of_vector v) filename (lock_recursive s)
                  ++ [Observe (E_open filename true) (loaded_files s) (S (use_mutex s))
                        Unlocked]).
      split; [rewrite Htr, <- !app_assoc; reflexivity|].
      apply Forall_app. split.
      * eapply Forall_impl; [exact Hnew|]. intros o Ho. split.
        -- revert Ho. apply observation_ok_weaken; simpl; [set_solver | lia].
        -- destruct Ho as (_ & Ho & _). simpl in Ho. lia.
      * constructor; [split; [obs_ok | simpl; lia]|].
        constructor; [split; [obs_ok | simpl; lia]|].
        constructor; [split; [obs_ok | simpl; lia] | constructor].
    + rewrite (use_absent _ _ Hm Hnin).
      rewrite eval_file_unopened by exact Hf. simpl. rewrite Hm.
      split; [discriminate|]. split; [reflexivity|]. split; [set_solver|].
      split; [reflexivity|]. split; [lia|]. split; [reflexivity|].
      eexists [_]. split; [reflexivity|].
      constructor; [|constructor]. split; [obs_ok | simpl; lia].
Qed.

Lemma use_good (filename : string) : good (use eval_rec filename).
Proof.
  intros s Hm.
  destruct (use_spec filename s Hm) as (Hb & Hm' & Hl & Hf & Hu & Ht & new & Htr & Hnew).
  repeat (split; [assumption|]).
  exists new. split; [exact Htr|].
  eapply Forall_impl; [exact Hnew|]. intros o [Ho _]. exact Ho.
Qed.

(** *** The monad keeps the discipline *)

Lemma ret_good {A} (a : A) : good (ret a).
Proof.
  intros s Hm. unfold call_ok, ret. simpl.
  split; [discriminate|]. split; [exact Hm|]. split; [set_solver|].
  split; [reflexivity|]. split; [lia|]. split; [reflexivity|].
  exists []. split; [reflexivity | constructor].
Qed.

Lemma throw_good {A} (e : exception Boxed_Value) : good (@throw _ A e).
Proof.
  intros s Hm. unfold call_ok, throw. simpl.
  split; [discriminate|]. split; [exact Hm|]. split; [set_solver|].
  split; [reflexivity|]. split; [lia|]. split; [reflexivity|].
  exists []. split; [reflexivity | constructor].
Qed.

Lemma bind_good {A B} (m : M A) (k : A -> M B) :
  good m → (∀ a, good (k a)) → good (bind m k).
Proof.
  intros Hgm Hgk s Hm. unfold call_ok, bind.
  pose proof (Hgm s Hm) as H1.
  destruct (m s) as [r s1].
  destruct H1 as (Hb & Hm1 & Hl1 & Hf1 & Hu1 & Ht1 & new1 & Htr1 & Hnew1).
  simpl in Hb, Hm1, Hl1, Hf1, Hu1, Ht1, Htr1.
  destruct r as [a|e| |]; simpl;
    try (repeat (split; [first [assumption | discriminate]|]);
         exists new1; split; assumption).
  - specialize (Ht1 eq_refl).
    pose proof (Hgk a s1 Hm1) as H2.
    destruct (k a s1) as [r2 s2].
    destruct H2 as (Hb2 & Hm2 & Hl2 & Hf2 & Hu2 & Ht2 & new2 & Htr2 & Hnew2).
    simpl in Hb2, Hm2, Hl2, Hf2, Hu2, Ht2, Htr2. simpl.
    split; [exact Hb2|]. split; [exact Hm2|]. split; [set_solver|].
    split; [congruence|]. split; [lia|]. split; [intros H; specialize (Ht2 H); lia|].
    exists (new2 ++ new1). split.
    + rewrite Htr2, Htr1, app_assoc. reflexivity.
    + apply Forall_app. split; [|exact Hnew1].
      revert Hnew2. apply Forall_observation_ok_weaken; [exact Hl1 | lia].
  - contradiction.
Qed.

Lemma internal_eval_good (vals : list Boxed_Value) : good (internal_eval eval_rec vals).
Proof.
  unfold internal_eval. destruct vals as [|v vals]; [apply throw_good|].
  destruct (boxed_cast_string v); [apply do_eval_good | apply throw_good].
Qed.

Lemma run_good (sc : script Boxed_Value) : good (run eval_rec sc).
Proof.
  induction sc as [v|e|filename k IH|vals k IH]; simpl.
  - apply ret_good.
  - apply throw_good.
  - apply bind_good; [apply use_good | intros _; exact IH].
  - apply bind_good; [apply internal_eval_good | exact IH].
Qed.

End System_facts.

Section Budget.
Context `{E : Eval_Engine}.

Lemma eval_token_n_good (n : nat) : ∀ sc, good (eval_token_n n sc).
Proof.
  induction n as [|n IH]; intros sc.
  - intros s Hm. unfold call_ok. simpl.
    split; [discriminate|]. split; [exact Hm|]. split; [set_solver|].
    split; [reflexivity|]. split; [lia|]. split; [discriminate|].
    exists []. split; [reflexivity | constructor].
  - simpl. apply run_good. exact IH.
Qed.

End Budget.

(** ** The claims *)

Section Claims.
Context `{E : Eval_Engine}.

Lemma perform_keeps (c : system_call) (s : System) :
  mutex s = Unlocked →
  mutex (perform c s) = Unlocked ∧ loaded_files s ⊆ loaded_files (perform c s).
Proof.
  intros Hm. destruct c as [n input filename|n filename|n filename|n vals]; simpl.
  - destruct (do_eval_good _ (eval_token_n_good n) input filename s Hm)
      as (_ & H1 & H2 & _). split; assumption.
  - destruct (files s (c_str filename)) as [v|] eqn:Hf.
    + rewrite (eval_file_opened _ filename v) by exact Hf.
      destruct (do_eval_good _ (eval_token_n_good n) (string_of_vector v) filename
                  (emit (E_open filename true) s) Hm) as (_ & H1 & H2 & _).
      split; assumption.
    + rewrite eval_file_unopened by exact Hf. simpl. split; [exact Hm | set_solver].
  - destruct (use_good _ (eval_token_n_good n) filename s Hm) as (_ & H1 & H2 & _).
    split; assumption.
  - destruct (internal_eval_good _ (eval_token_n_good n) vals s Hm) as (_ & H1 & H2 & _).
    split; assumption.
Qed.

Lemma lifetime_keeps (calls : list system_call) (s : System) :
  mutex s = Unlocked →
  mutex (lifetime calls s) = Unlocked ∧ loaded_files s ⊆ loaded_files (lifetime calls s).
Proof.
  revert s. induction calls as [|c calls IH]; intros s Hm; simpl.
  - split; [exact Hm | reflexivity].
  - destruct (perform_keeps c s Hm) as [Hm1 Hl1].
    destruct (IH (perform c s) Hm1) as [Hm2 Hl2].
    split; [exact Hm2 | etrans; eassumption].
Qed.

Lemma ok_not_reopened (s : System) (f : string) (new : list observation) :
  Forall (observation_ok s) new →
  f ∈ loaded_files s →
  Forall (λ o, is_open_of f (ev o) = false) new.
Proof.
  intros Hnew Hf. eapply Forall_impl; [exact Hnew|].
  intros o (Hsub & _ & Ho).
  destruct (ev o) as [| | |g b| |]; try reflexivity.
  destruct Ho as (Hg & _). simpl.
  apply String.eqb_neq. intros ->. apply Hg, Hsub, Hf.
Qed.

Lemma not_reopened_path (f : string) (new : list observation) :
  nul_free f = true →
  opened_names_hold_no_NUL new →
  Forall (λ o, is_open_of f (ev o) = false) new →
  Forall (λ o, opened_path (c_str f) (ev o) = false) new.
Proof.
  intros Hf Hnul Hname. unfold opened_names_hold_no_NUL in Hnul.
  rewrite Forall_forall in *. intros o Ho.
  specialize (Hnul o Ho). specialize (Hname o Ho).
  destruct (ev o) as [| | |g [|]| |]; try reflexivity.
  simpl in *. rewrite (c_str_id g (Hnul g eq_refl)), (c_str_id f Hf). exact Hname.
Qed.

Lemma after_eval_token_adds_a_sync (out : result Boxed_Value Boxed_Value * System) :
  loaded_files (snd (after_eval_token out)) = loaded_files (snd out) ∧
  ∃ extra,
    trace (snd (after_eval_token out)) = extra ++ trace (snd out) ∧
    Forall (λ o, ev o = E_sync_cache) extra.
Proof.
  destruct out as [[value|e| |] s5]; [| destruct e | |]; simpl;
    (split; [reflexivity|]);
    first [ exists []; split; [reflexivity | constructor]
          | eexists [_]; split; [reflexivity | constructor; [reflexivity | constructor]] ].
Qed.

Lemma do_eval_is_one_evaluation
    (eval_rec : script Boxed_Value -> M Boxed_Value)
    (input filename : string) (ast : TokenPtr) (s : System) :
  mutex s = Unlocked →
  parser_parse input (c_str filename) = Parse_true ast →
  do_eval eval_rec input filename s =
    after_eval_token (eval_rec (eval_token ast) (at_eval_token input filename ast s)).
Proof.
  intros Hm Hp. rewrite (do_eval_Parse_true _ _ _ ast _ Hm Hp).
  destruct (eval_rec (eval_token ast) (at_eval_token input filename ast s))
    as [[value|e| |] s5]; [| destruct e | |]; reflexivity.
Qed.

(** C2: every [do_eval] interns the file name into [loaded_files] before
    the parser runs: the parse of the call is observed with the name in
    the set, and so is every parse nested in it.  The name is in the set
    when the call is over, inserting a name that is present changes
    nothing, and no call ever takes a name out: over any sequence of
    calls the set only grows. *)
Theorem loaded_files_interned_before_parse_and_grows
    (n : nat) (input filename : string) (s : System) :
  mutex s = Unlocked →
  let out := do_eval (eval_token_n n) input filename s in
  (∃ new,
     trace (snd out) =
       new ++ Observe (E_parse input filename) ({[filename]} ∪ loaded_files s)
                (use_mutex s) Write_locked
           :: Observe E_sync_cache (loaded_files s) (use_mutex s) Unlocked
           :: trace s ∧
     Forall (λ o, ∀ i f, ev o = E_parse i f → f ∈ at_loaded o) new) ∧
  filename ∈ loaded_files (snd out) ∧
  (filename ∈ loaded_files s →
   loaded_files (loaded_files_insert filename s) = loaded_files s) ∧
  (∀ c, loaded_files s ⊆ loaded_files (perform c s)) ∧
  (∀ calls, loaded_files s ⊆ loaded_files (lifetime calls s)).
Proof.
  intros Hm out. subst out.
  destruct (do_eval_spec _ (eval_token_n_good n) input filename s Hm)
    as (_ & _ & Hl & _ & _ & _ & new & Htr & Hnew).
  split; [|split; [|split; [|split]]].
  - exists new. split; [exact Htr|].
    eapply Forall_impl; [exact Hnew|].
    intros o (_ & _ & Ho) i f Hev. rewrite Hev in Ho. apply Ho.
  - apply Hl, elem_of_union_l, elem_of_singleton. reflexivity.
  - intros Hin. simpl. apply subseteq_union_1_L, singleton_subseteq_l, Hin.
  - intros c. apply perform_keeps, Hm.
  - intros calls. apply lifetime_keeps, Hm.
Qed.

(** C5: when the parser returned a tree and the evaluation of that tree
    ends in a thrown [Return_Value], [do_eval] catches it and returns the
    value it carries; the caller sees an ordinary result. *)
Theorem do_eval_returns_carried_value
    (eval_rec : script Boxed_Value -> M Boxed_Value)
    (input filename : string) (ast : TokenPtr) (retval : Boxed_Value) (s s5 : System) :
  mutex s = Unlocked →
  parser_parse input (c_str filename) = Parse_true ast →
  eval_rec (eval_token ast) (at_eval_token input filename ast s)
    = (Throws (Return_Value retval), s5) →
  do_eval eval_rec input filename s = (Returns retval, emit E_sync_cache s5).
Proof.
  intros Hm Hp Hrun. rewrite (do_eval_Parse_true _ _ _ ast _ Hm Hp), Hrun. reflexivity.
Qed.

(** C6, as the code has it: an exception other than [Return_Value] thrown
    by the parser or by the evaluation of the tree leaves [do_eval] as
    that same exception.  When [do_eval] returns a value, the parser
    returned [false], or the value was returned by the evaluation, or it
    was carried by a [Return_Value]: no thrown exception but the return
    signal is turned into a result.  A parser that reports a failure by
    returning [false] raises nothing: [do_eval] then returns the default
    value. *)
Theorem do_eval_propagates_errors
    (eval_rec : script Boxed_Value -> M Boxed_Value)
    (input filename : string) (e : exception Boxed_Value) (s : System) :
  mutex s = Unlocked →
  is_Return_Value e = false →
  (parser_parse input (c_str filename) = Parse_throws e →
   fst (do_eval eval_rec input filename s) = Throws e) ∧
  (∀ ast s5,
     parser_parse input (c_str filename) = Parse_true ast →
     eval_rec (eval_token ast) (at_eval_token input filename ast s) = (Throws e, s5) →
     do_eval eval_rec input filename s = (Throws e, s5)) ∧
  (∀ v,
     fst (do_eval eval_rec input filename s) = Returns v →
     (parser_parse input (c_str filename) = Parse_false ∧ v = void_value) ∨
     parser_parse input (c_str filename) = Parse_throws (Return_Value v) ∨
     ∃ ast,
       parser_parse input (c_str filename) = Parse_true ast ∧
       let r := fst (eval_rec (eval_token ast) (at_eval_token input filename ast s)) in
       r = Returns v ∨ r = Throws (Return_Value v)) ∧
  (parser_parse input (c_str filename) = Parse_false →
   fst (do_eval eval_rec input filename s) = Returns void_value).
Proof.
  intros Hm He. split; [|split; [|split]].
  - intros Hp. rewrite (do_eval_Parse_throws _ _ _ e _ Hm Hp).
    destruct e; simpl in He; [discriminate | reflexivity ..].
  - intros ast s5 Hp Hrun. rewrite (do_eval_Parse_true _ _ _ ast _ Hm Hp), Hrun.
    destruct e; simpl in He; [discriminate | reflexivity ..].
  - intros v Hret.
    destruct (parser_parse input (c_str filename)) as [ast| |e'] eqn:Hp.
    + right. right. exists ast. split; [reflexivity|].
      rewrite (do_eval_Parse_true _ _ _ ast _ Hm Hp) in Hret.
      destruct (eval_rec (eval_token ast) (at_eval_token input filename ast s))
        as [[value|e'| |] s5]; simpl in *.
      * left. exact Hret.
      * destruct e'; simpl in Hret; try discriminate. right. congruence.
      * discriminate.
      * discriminate.
    + left. rewrite (do_eval_Parse_false _ _ _ _ Hm Hp) in Hret. simpl in Hret.
      split; [reflexivity | congruence].
    + right. left. rewrite (do_eval_Parse_throws _ _ _ e' _ Hm Hp) in Hret.
      destruct e'; simpl in Hret; try discriminate. congruence.
  - intros Hp. rewrite (do_eval_Parse_false _ _ _ _ Hm Hp). reflexivity.
Qed.

(** C7: when the path [c_str filename] cannot be opened, [eval_file]
    throws the [runtime_error] of [load_file], built from
    ["Can not open: " + filename]; the message a handler reads through
    [what()] is ["Can not open: "] followed by the path that could not be
    opened.  The only thing observed is the failed open: nothing is
    interned, parsed or evaluated. *)
Theorem eval_file_reports_unopened_path
    (eval_rec : script Boxed_Value -> M Boxed_Value) (filename : string) (s : System) :
  files s (c_str filename) = None →
  ∃ e s',
    eval_file eval_rec filename s = (Throws e, s') ∧
    load_file filename s = (Throws e, s') ∧
    e = runtime_error ("Can not open: " +:+ filename) ∧
    what e = Some ("Can not open: " +:+ c_str filename) ∧
    loaded_files s' = loaded_files s ∧
    trace s' =
      Observe (E_open filename false) (loaded_files s) (use_mutex s) (mutex s) :: trace s.
Proof.
  intros Hf.
  exists (runtime_error ("Can not open: " +:+ filename)), (emit (E_open filename false) s).
  split; [apply eval_file_unopened, Hf|].
  split; [unfold load_file; rewrite Hf; reflexivity|].
  split; [reflexivity|].
  split; [simpl; rewrite c_str_append by reflexivity; reflexivity|].
  split; reflexivity.
Qed.

(** C10: for a file that opens, [load_file] returns the longest prefix of
    its bytes that holds no NUL byte: all of them when there is none, the
    empty string for an empty file; and that prefix is the text
    [eval_file] hands to [do_eval]. *)
Theorem load_file_truncates_at_first_NUL (filename v : string) (s : System) :
  files s (c_str filename) = Some v →
  ∃ r,
    load_file filename s = (Returns r, emit (E_open filename true) s) ∧
    longest_nul_free_prefix r v ∧
    (∃ rest, v = r +:+ rest ∧ (rest = EmptyString ∨ ∃ tail, rest = String NUL tail)) ∧
    (nul_free v = true → r = v) ∧
    (v = EmptyString → r = EmptyString) ∧
    ∀ eval_rec,
      eval_file eval_rec filename s =
        do_eval eval_rec r filename (emit (E_open filename true) s).
Proof.
  intros Hf. exists (string_of_vector v).
  split; [unfold load_file; rewrite Hf; reflexivity|].
  rewrite string_of_vector_c_str.
  split; [|split; [|split; [|split]]].
  - split; [apply c_str_is_prefix|]. split; [apply c_str_nul_free|].
    intros p. apply c_str_longest.
  - apply c_str_split.
  - apply c_str_id.
  - intros ->. reflexivity.
  - intros eval_rec. rewrite (eval_file_opened _ filename v) by exact Hf.
    rewrite string_of_vector_c_str. reflexivity.
Qed.

Lemma omap_all_None {A B} (f : A -> option B) (l : list A) :
  Forall (λ a, f a = None) l → omap f l = [].
Proof.
  induction 1 as [|a l Ha _ IH]; simpl; [reflexivity|]. rewrite Ha. exact IH.
Qed.

Lemma observation_ok_not_reserved (s : System) (o : observation) :
  observation_ok s o → reserved_word_of (ev o) = None.
Proof.
  intros (_ & _ & H). destruct (ev o); simpl; solve [reflexivity | contradiction].
Qed.

(** C8: the constructor gives the engine the sixteen reserved words
    [def fun while for if else && || , := var return break true false _],
    each once and no other, and does so before the prelude is handed to
    the parser: no reserved word is registered from then on. *)
Theorem build_eval_system_registers_reserved_words
    (n : nat) (fs : string -> option string) :
  let s := snd (ChaiScript_System n fs) in
  registered_reserved_words s =
    ["def"; "fun"; "while"; "for"; "if"; "else"; "&&"; "||"; ","; ":="; "var";
     "return"; "break"; "true"; "false"; "_"] ∧
  length (registered_reserved_words s) = 16 ∧
  NoDup (registered_reserved_words s) ∧
  ∃ rest,
    rev (map ev (trace s)) =
      map E_add_reserved_word reserved_words ++ map E_add registered_names
        ++ E_sync_cache :: E_parse chaiscript_prelude "standard prelude" :: rest ∧
    Forall (λ e, reserved_word_of e = None) rest.
Proof.
  intros s.
  assert (Hshape : ∃ rest,
    rev (map ev (trace s)) =
      map E_add_reserved_word reserved_words ++ map E_add registered_names
        ++ E_sync_cache :: E_parse chaiscript_prelude "standard prelude" :: rest ∧
    Forall (λ e, reserved_word_of e = None) rest).
  { subst s. unfold ChaiScript_System, build_eval_system.
    destruct (do_eval_spec _ (eval_token_n_good n) chaiscript_prelude "standard prelude"
                (add_all registered_names (add_reserved_words reserved_words (fresh fs)))
                eq_refl) as (_ & _ & _ & _ & _ & _ & new & Htr & Hnew).
    exists (rev (map ev new)). split.
    - rewrite Htr, !map_app, !rev_app_distr. reflexivity.
    - apply Forall_rev, Forall_map.
      eapply Forall_impl; [exact Hnew|]. intros o. apply observation_ok_not_reserved. }
  destruct Hshape as (rest & Hrev & Hrest).
  assert (Hwords : registered_reserved_words s =
            ["def"; "fun"; "while"; "for"; "if"; "else"; "&&"; "||"; ","; ":="; "var";
             "return"; "break"; "true"; "false"; "_"]).
  { unfold registered_reserved_words. rewrite Hrev.
    change (E_sync_cache :: E_parse chaiscript_prelude "standard prelude" :: rest)
      with ([E_sync_cache; E_parse chaiscript_prelude "standard prelude"] ++ rest).
    rewrite !omap_app, (omap_all_None _ rest Hrest). reflexivity. }
  split; [exact Hwords|]. rewrite Hwords.
  split; [reflexivity|]. split; [|exists rest; split; assumption].
  apply (bool_decide_unpack _). vm_compute. reflexivity.
Qed.

(** C4: a unit whose evaluation starts with [use] of its own file name
    does not deadlock.  [do_eval] interned the name before the parser ran
    and gave up the unique lock before it called [eval_token], so the
    nested [use] finds the name in [loaded_files]: all it does is a cache
    sync, and [do_eval] goes on with what follows the call.  The whole
    [do_eval] is that one evaluation: after the parse and the call of
    [eval_token] comes the cache sync of the nested [use], the file of the
    unit is never opened, and neither [do_eval] nor a first load through
    [use] ever blocks on a mutex the thread holds. *)
Theorem self_use_does_not_deadlock
    (n : nat) (input filename : string) (ast : TokenPtr) (k : script Boxed_Value)
    (s : System) :
  mutex s = Unlocked →
  parser_parse input (c_str filename) = Parse_true ast →
  eval_token ast = Call_use filename k →
  let s4 := at_eval_token input filename ast s in
  let out := do_eval (eval_token_n (S n)) input filename s in
  filename ∈ loaded_files s4 ∧
  use (eval_token_n n) filename s4 = (Returns tt, cache_sync_only s4) ∧
  eval_token_n (S n) (eval_token ast) s4 = eval_token_n (S n) k (cache_sync_only s4) ∧
  (∀ m, fst (do_eval (eval_token_n m) input filename s) ≠ Blocks) ∧
  (∀ m, fst (use (eval_token_n m) filename s) ≠ Blocks) ∧
  out = after_eval_token (eval_token_n (S n) k (cache_sync_only s4)) ∧
  (∃ new,
     trace (snd out) =
       new ++ Observe E_sync_cache ({[filename]} ∪ loaded_files s) (S (use_mutex s))
                (Read_locked 0)
           :: Observe (E_eval_token ast) ({[filename]} ∪ loaded_files s) (use_mutex s)
                Unlocked
           :: Observe (E_parse input filename) ({[filename]} ∪ loaded_files s)
                (use_mutex s) Write_locked
           :: Observe E_sync_cache (loaded_files s) (use_mutex s) Unlocked
           :: trace s ∧
     Forall (λ o, is_open_of filename (ev o) = false) new) ∧
  filename ∈ loaded_files (snd out).
Proof.
  intros Hm Hp Hast s4 out.
  assert (Hin : filename ∈ loaded_files s4) by (subst s4; simpl; set_solver).
  assert (Huse : ∀ n', use (eval_token_n n') filename s4 = (Returns tt, cache_sync_only s4)).
  { intros n'. apply use_loaded; [exact Hin | subst s4; simpl; discriminate]. }
  assert (Hstep : eval_token_n (S n) (eval_token ast) s4
                  = eval_token_n (S n) k (cache_sync_only s4)).
  { rewrite Hast. simpl. unfold bind. rewrite Huse. reflexivity. }
  assert (Hout : out = after_eval_token (eval_token_n (S n) k (cache_sync_only s4))).
  { subst out. rewrite (do_eval_is_one_evaluation _ _ _ ast _ Hm Hp). fold s4.
    rewrite Hstep. reflexivity. }
  split; [exact Hin|]. split; [apply Huse|]. split; [exact Hstep|].
  split; [intros m; apply (do_eval_good _ (eval_token_n_good m) input filename s Hm)|].
  split; [intros m; apply (use_good _ (eval_token_n_good m) filename s Hm)|].
  split; [exact Hout|].
  pose proof (eval_token_n_good (S n) k (cache_sync_only s4) eq_refl)
    as (_ & _ & Hl & _ & _ & _ & newk & Htrk & Hnewk).
  destruct (after_eval_token_adds_a_sync (eval_token_n (S n) k (cache_sync_only s4)))
    as (Hlf & extra & Htre & Hextra).
  rewrite <- Hout in Hlf, Htre.
  split.
  - exists (extra ++ newk). split.
    + rewrite Htre, Htrk, <- app_assoc. subst s4. simpl. rewrite Hm. reflexivity.
    + apply Forall_app. split.
      * eapply Forall_impl; [exact Hextra|]. intros o Ho. rewrite Ho. reflexivity.
      * apply (ok_not_reopened (cache_sync_only s4)); [exact Hnewk | exact Hin].
  - rewrite Hlf. apply Hl. exact Hin.
Qed.

(** C3, as the code has it: [use] holds [use_mutex] from its first line to
    its last, so everything a call to [use] does, the file read, the parse
    and the evaluation of a first load included, happens inside that
    exclusive section.  What is given up before the file is read is the
    shared lock on [mutex]: the file is opened and the tree is evaluated
    with [mutex] not held, and the parser runs under the unique lock that
    [do_eval] takes.  A call that returns or throws leaves both mutexes as
    it found them. *)
Theorem use_holds_use_mutex_throughout (n : nat) (filename : string) (s : System) :
  mutex s = Unlocked →
  let out := use (eval_token_n n) filename s in
  (∃ new,
     trace (snd out) = new ++ trace s ∧
     Forall (λ o, use_mutex s < at_use_mutex o ∧
                  match ev o with
                  | E_open _ _ => at_mutex o = Unlocked
                  | E_parse _ _ => at_mutex o = Write_locked
                  | E_eval_token _ => at_mutex o = Unlocked
                  | _ => True
                  end) new) ∧
  (terminated (fst out) = true →
   use_mutex (snd out) = use_mutex s ∧ mutex (snd out) = Unlocked).
Proof.
  intros Hm out. subst out.
  destruct (use_spec _ (eval_token_n_good n) filename s Hm)
    as (_ & Hm' & _ & _ & _ & Ht & new & Htr & Hnew).
  split.
  - exists new. split; [exact Htr|].
    eapply Forall_impl; [exact Hnew|].
    intros o [(_ & _ & Ho) Hlt]. split; [exact Hlt|].
    destruct (ev o); try exact I; try tauto.
  - intros Hterm. split; [apply Ht, Hterm | exact Hm'].
Qed.

(** C1, as the code has it: when the file of a name that is not in
    [loaded_files] can be opened, [use] opens it once and hands its text to
    the parser once.  When the parser returns a tree, the call is one
    evaluation of that tree, started right after the parse: its outcome and
    its final state are those of that one call of [eval_token]; when the
    parser returns [false] or throws, nothing is evaluated.  The name is in
    [loaded_files] when the call is over, however parsing and evaluation
    ended, and nothing the call does after the open opens a file under that
    name again; a name and a path are the same string when the name holds
    no NUL byte, and then the path is not opened again either.  From then
    on every [use] of the name does a cache sync and returns. *)
Theorem use_loads_readable_file_once (n : nat) (filename v : string) (s : System) :
  mutex s = Unlocked →
  filename ∉ loaded_files s →
  files s (c_str filename) = Some v →
  let out := use (eval_token_n n) filename s in
  filename ∈ loaded_files (snd out) ∧
  (∃ new,
     trace (snd out) =
       new ++ Observe (E_parse (string_of_vector v) filename)
                ({[filename]} ∪ loaded_files s) (S (use_mutex s)) Write_locked
           :: Observe E_sync_cache (loaded_files s) (S (use_mutex s)) Unlocked
           :: Observe (E_open filename true) (loaded_files s) (S (use_mutex s)) Unlocked
           :: trace s ∧
     Forall (λ o, is_open_of filename (ev o) = false) new ∧
     (nul_free filename = true →
      opened_names_hold_no_NUL new →
      Forall (λ o, opened_path (c_str filename) (ev o) = false) new)) ∧
  match parser_parse (string_of_vector v) (c_str filename) with
  | Parse_true ast =>
      out = after_eval_file
              (after_eval_token
                 (eval_token_n n (eval_token ast)
                    (at_eval_token (string_of_vector v) filename ast
                       (emit (E_open filename true) (lock_recursive s)))))
  | _ =>
      ∃ new,
        trace (snd out) = new ++ trace s ∧
        Forall (λ o, ∀ ast, ev o ≠ E_eval_token ast) new
  end ∧
  ∀ m s2,
    loaded_files (snd out) ⊆ loaded_files s2 →
    mutex s2 ≠ Write_locked →
    use (eval_token_n m) filename s2 = (Returns tt, cache_sync_only s2).
Proof.
  intros Hm Hnin Hf out. subst out.
  destruct (use_first_load _ (eval_token_n_good n) filename v s Hm Hnin Hf)
    as (_ & _ & Hl & _ & _ & _ & new & Htr & Hnew).
  assert (Hin : filename ∈ loaded_files (snd (use (eval_token_n n) filename s)))
    by set_solver.
  assert (Hname : Forall (λ o, is_open_of filename (ev o) = false) new).
  { apply (ok_not_reopened _ filename new Hnew). simpl. set_solver. }
  split; [exact Hin|]. split; [|split].
  - exists new. split; [exact Htr|]. split; [exact Hname|].
    intros Hfree Hnul. apply not_reopened_path; assumption.
  - rewrite (use_absent _ _ _ Hm Hnin).
    rewrite (eval_file_opened _ filename v) by exact Hf.
    destruct (parser_parse (string_of_vector v) (c_str filename)) as [ast| |e] eqn:Hp.
    + rewrite (do_eval_is_one_evaluation _ _ _ ast
                 (emit (E_open filename true) (lock_recursive s)) Hm Hp).
      reflexivity.
    + rewrite do_eval_Parse_false by (try exact Hp; exact Hm). simpl. rewrite Hm.
      eexists [_; _; _; _]. split; [reflexivity|].
      repeat (constructor; [intros ?; discriminate|]). constructor.
    + rewrite (do_eval_Parse_throws _ _ _ e
                 (emit (E_open filename true) (lock_recursive s)) Hm Hp).
      destruct e; simpl; rewrite Hm;
        first [ eexists [_; _; _; _]; split; [reflexivity|]
              | eexists [_; _; _]; split; [reflexivity|] ];
        repeat (constructor; [intros ?; discriminate|]); constructor.
  - intros m s2 Hsub Hm2. apply use_loaded; [set_solver | exact Hm2].
Qed.

(** C9: when [do_eval] ends in an exception, thrown by the parser or by
    the evaluation, the file name it interned is still in [loaded_files];
    every later [use] of that name does a cache sync and returns, without
    opening, parsing or evaluating anything. *)
Theorem failed_load_is_not_retried
    (n : nat) (input filename : string) (e : exception Boxed_Value) (s : System) :
  mutex s = Unlocked →
  fst (do_eval (eval_token_n n) input filename s) = Throws e →
  let s' := snd (do_eval (eval_token_n n) input filename s) in
  filename ∈ loaded_files s' ∧
  ∀ m s2,
    loaded_files s' ⊆ loaded_files s2 →
    mutex s2 ≠ Write_locked →
    use (eval_token_n m) filename s2 = (Returns tt, cache_sync_only s2) ∧
    trace (cache_sync_only s2) =
      Observe E_sync_cache (loaded_files s2) (S (use_mutex s2)) (shared_once (mutex s2))
        :: trace s2.
Proof.
  intros Hm _ s'. subst s'.
  destruct (do_eval_spec _ (eval_token_n_good n) input filename s Hm)
    as (_ & _ & Hl & _).
  split; [set_solver|].
  intros m s2 Hsub Hm2. split; [|reflexivity].
  apply use_loaded; [set_solver | exact Hm2].
Qed.

End Claims.

(** ** The claims on the concrete engine *)

Section Demo_runs.
Import Demo.

Lemma chai_unlocked : mutex (chai 2) = Unlocked.
Proof. vm_compute. reflexivity. Qed.

Lemma chai_not_loaded (filename : string) :
  bool_decide (filename ∈ loaded_files (chai 2)) = false →
  filename ∉ loaded_files (chai 2).
Proof. intros H. apply bool_decide_eq_false in H. exact H. Qed.

(** Where C1 fails as worded, on a constructed system.  A file that
    cannot be opened: the first [use] throws and interns nothing, so the
    second [use] does not find the name, tries to open the file again and
    throws again; the host sees the same when it evaluates a text that
    calls [use].  A file the parser rejects: the first [use] reads it and
    evaluates nothing, and the second [use] returns without trying again.
    Two names for one path: after [use] of [a.chai], [use] of that name
    followed by a NUL byte and more reads and evaluates the same file a
    second time. *)
Lemma use_of_unopened_file_is_retried :
  let out1 := use (eval_token_n 1) "missing.chai" (chai 2) in
  let out2 := use (eval_token_n 1) "missing.chai" (snd out1) in
  let bad := use (eval_token_n 1) "bad.chai" (chai 2) in
  let other_name := "a.chai" +:+ String NUL "x" in
  let first := use (eval_token_n 1) "a.chai" (chai 2) in
  let second := use (eval_token_n 1) other_name (snd first) in
  fst out1 = Throws (runtime_error "Can not open: missing.chai") ∧
  ("missing.chai" ∉ loaded_files (snd out1)) ∧
  fst out2 = Throws (runtime_error "Can not open: missing.chai") ∧
  take 2 (map ev (trace (snd out2)))
    = [E_open "missing.chai" false; E_open "missing.chai" false] ∧
  fst (do_eval (eval_token_n 2) "use missing.chai" "__EVAL__" (chai 2))
    = Throws (runtime_error "Can not open: missing.chai") ∧
  (fst bad = Throws (Eval_Error "Unparsed input") ∧
   take 3 (map ev (trace (snd bad)))
     = [E_parse ")" "bad.chai"; E_sync_cache; E_open "bad.chai" true] ∧
   length (trace (snd bad)) = 3 + length (trace (chai 2)) ∧
   fst (use (eval_token_n 1) "bad.chai" (snd bad)) = Returns tt) ∧
  (fst first = Returns tt ∧
   fst second = Returns tt ∧
   take 5 (map ev (trace (snd second)))
     = [E_sync_cache; E_eval_token (Yield (Str "hello")); E_parse "hello" other_name;
        E_sync_cache; E_open other_name true] ∧
   c_str other_name = "a.chai") ∧
  ¬ @use_loads_once_for_every_name engine.
Proof.
  assert (Hnin : "missing.chai" ∉
                 loaded_files (snd (use (eval_token_n 1) "missing.chai" (chai 2)))).
  { intros Hin. apply (bool_decide_pack _) in Hin. vm_compute in Hin. exact Hin. }
  split; [vm_compute; reflexivity|]. split; [exact Hnin|].
  split; [vm_compute; reflexivity|]. split; [vm_compute; reflexivity|].
  split; [vm_compute; reflexivity|].
  split.
  { split; [vm_compute; reflexivity|]. split; [vm_compute; reflexivity|].
    split; vm_compute; reflexivity. }
  split.
  { split; [vm_compute; reflexivity|]. split; [vm_compute; reflexivity|].
    split; vm_compute; reflexivity. }
  intros H.
  assert (Hfresh : "missing.chai" ∉ loaded_files (chai 2))
    by (apply chai_not_loaded; vm_compute; reflexivity).
  destruct (H 1 "missing.chai" (chai 2) chai_unlocked Hfresh) as [Hin _].
  exact (Hnin Hin).
Qed.

(** Where C3 fails as worded: a first load through [use] on a constructed
    system.  The file is opened, parsed and evaluated while [use_mutex] is
    held once, and the parser runs under the unique lock on [mutex]. *)
Lemma first_load_runs_inside_use_mutex :
  let out := use (eval_token_n 1) "a.chai" (chai 2) in
  use_mutex (chai 2) = 0 ∧
  take 5 (map (λ o, (ev o, at_use_mutex o, at_mutex o)) (trace (snd out))) =
    [(E_sync_cache, 1, Unlocked);
     (E_eval_token (Yield (Str "hello")), 1, Unlocked);
     (E_parse "hello" "a.chai", 1, Write_locked);
     (E_sync_cache, 1, Unlocked);
     (E_open "a.chai" true, 1, Unlocked)] ∧
  length (trace (snd out)) = 5 + length (trace (chai 2)) ∧
  ¬ @first_load_runs_unlocked engine.
Proof.
  assert (Hlen : length (trace (snd (use (eval_token_n 1) "a.chai" (chai 2))))
                 = 5 + length (trace (chai 2))) by (vm_compute; reflexivity).
  split; [vm_compute; reflexivity|]. split; [vm_compute; reflexivity|].
  split; [exact Hlen|].
  intros H.
  assert (Hfresh : "a.chai" ∉ loaded_files (chai 2))
    by (apply chai_not_loaded; vm_compute; reflexivity).
  assert (Hdepth : use_mutex (chai 2) = 0) by (vm_compute; reflexivity).
  destruct (H 1 "a.chai" (chai 2) chai_unlocked Hdepth Hfresh) as (new & Htr & Hall).
  assert (Hnew : new = take 5 (trace (snd (use (eval_token_n 1) "a.chai" (chai 2))))).
  { rewrite Htr. symmetry. apply take_app_length'.
    rewrite Htr, length_app in Hlen. lia. }
  rewrite Hnew in Hall. clear Hnew Htr Hlen.
  vm_compute in Hall.
  apply Forall_inv_tail, Forall_inv in Hall.
  destruct Hall as [Hall _]. discriminate Hall.
Qed.

(** Where C6 fails as worded: a parser that reports a failure by
    returning [false].  [do_eval] of the rejected text returns the default
    value as if there had been nothing to evaluate, and [use] of a file
    with that text returns normally. *)
Lemma parse_failure_reported_by_false_is_not_raised :
  parser_parse (Eval_Engine := Demo_quiet.engine) ")" (c_str "bad.chai") = Parse_false ∧
  fst (do_eval (E := Demo_quiet.engine) (eval_token_n 1) ")" "bad.chai" (fresh disk))
    = Returns Void ∧
  fst (use (E := Demo_quiet.engine) (eval_token_n 1) "bad.chai" (fresh disk)) = Returns tt ∧
  ¬ @do_eval_reports_every_failure Demo_quiet.engine.
Proof.
  split; [reflexivity|]. split; [vm_compute; reflexivity|].
  split; [vm_compute; reflexivity|].
  intros H.
  destruct (H (eval_token_n 1) ")" "bad.chai" (fresh disk) eq_refl) as [e He].
  - intros ast Habs. vm_compute in Habs. discriminate Habs.
  - intros retval Habs. vm_compute in Habs. discriminate Habs.
  - vm_compute in He. discriminate He.
Qed.

(** C1 on a file that opens. *)
Lemma use_loads_readable_file_once_witness :
  "a.chai" ∈ loaded_files (snd (use (eval_token_n 1) "a.chai" (fresh disk))).
Proof.
  exact (proj1 (use_loads_readable_file_once 1 "a.chai" "hello" (fresh disk)
                  eq_refl (not_elem_of_empty _) eq_refl)).
Defined.

(** C2 on the text of [a.chai]. *)
Lemma loaded_files_interned_witness :
  "a.chai" ∈ loaded_files (snd (do_eval (eval_token_n 1) "hello" "a.chai" (fresh disk))).
Proof.
  exact (proj1 (proj2 (loaded_files_interned_before_parse_and_grows 1 "hello" "a.chai"
                         (fresh disk) eq_refl))).
Defined.

(** C3 on a first load of [a.chai]. *)
Lemma use_holds_use_mutex_witness :
  use_mutex (snd (use (eval_token_n 1) "a.chai" (fresh disk))) = 0 ∧
  mutex (snd (use (eval_token_n 1) "a.chai" (fresh disk))) = Unlocked.
Proof.
  exact (proj2 (use_holds_use_mutex_throughout 1 "a.chai" (fresh disk) eq_refl) eq_refl).
Defined.

(** C4 on a file whose text is a [use] of itself. *)
Lemma self_use_witness :
  use (eval_token_n 0) "self.chai"
      (at_eval_token "use self.chai" "self.chai" (Call_use "self.chai" (Yield Void))
         (fresh disk))
  = (Returns tt,
     cache_sync_only
       (at_eval_token "use self.chai" "self.chai" (Call_use "self.chai" (Yield Void))
          (fresh disk))).
Proof.
  exact (proj1 (proj2 (self_use_does_not_deadlock 0 "use self.chai" "self.chai"
                         (Call_use "self.chai" (Yield Void)) (Yield Void) (fresh disk)
                         eq_refl eq_refl eq_refl))).
Defined.

(** The same unit loaded through [use] on a constructed system: the call
    returns and the file was opened once. *)
Example self_use_run :
  let out := use (eval_token_n 2) "self.chai" (chai 2) in
  fst out = Returns tt ∧
  length (List.filter (is_open_of "self.chai") (map ev (trace (snd out)))) = 1.
Proof. split; vm_compute; reflexivity. Qed.

(** C5 on a text that is a bare [return]. *)
Lemma do_eval_returns_carried_value_witness :
  do_eval (eval_token_n 1) "return 5" "ret.chai" (fresh disk)
  = (Returns (Int 5),
     emit E_sync_cache
       (at_eval_token "return 5" "ret.chai" (Raise (Return_Value (Int 5))) (fresh disk))).
Proof.
  exact (do_eval_returns_carried_value (eval_token_n 1) "return 5" "ret.chai"
           (Raise (Return_Value (Int 5))) (Int 5) (fresh disk) _
           eq_refl eq_refl eq_refl).
Defined.

(** C6 on a text the parser rejects. *)
Lemma do_eval_propagates_errors_witness :
  fst (do_eval (eval_token_n 1) ")" "bad.chai" (fresh disk))
  = Throws (Eval_Error "Unparsed input").
Proof.
  exact (proj1 (do_eval_propagates_errors (eval_token_n 1) ")" "bad.chai"
                  (Eval_Error "Unparsed input") (fresh disk) eq_refl eq_refl) eq_refl).
Defined.

(** C7 on a name with a NUL byte whose path is not on the disk. *)
Lemma eval_file_reports_unopened_path_witness :
  ∃ e s',
    eval_file (eval_token_n 1) ("nope" +:+ String NUL "x") (fresh disk) = (Throws e, s') ∧
    load_file ("nope" +:+ String NUL "x") (fresh disk) = (Throws e, s') ∧
    e = runtime_error ("Can not open: " +:+ ("nope" +:+ String NUL "x")) ∧
    what e = Some "Can not open: nope" ∧
    loaded_files s' = loaded_files (fresh disk) ∧
    trace s' = [Observe (E_open ("nope" +:+ String NUL "x") false) ∅ 0 Unlocked].
Proof.
  exact (eval_file_reports_unopened_path (eval_token_n 1) ("nope" +:+ String NUL "x")
           (fresh disk) eq_refl).
Defined.

(** C9 on a unit the parser rejects. *)
Lemma failed_load_is_not_retried_witness :
  "bad.chai" ∈ loaded_files (snd (do_eval (eval_token_n 1) ")" "bad.chai" (fresh disk))).
Proof.
  exact (proj1 (failed_load_is_not_retried 1 ")" "bad.chai"
                  (Eval_Error "Unparsed input") (fresh disk) eq_refl eq_refl)).
Defined.

(** C10 on a file with a NUL byte in the middle. *)
Lemma load_file_truncates_witness :
  ∃ r,
    load_file "nul.chai" (fresh disk) = (Returns r, emit (E_open "nul.chai" true) (fresh disk)) ∧
    longest_nul_free_prefix r (String "a" (String "b" (String NUL "cd"))) ∧
    (∃ rest, String "a" (String "b" (String NUL "cd")) = r +:+ rest ∧
             (rest = EmptyString ∨ ∃ tail, rest = String NUL tail)) ∧
    (nul_free (String "a" (String "b" (String NUL "cd"))) = true →
     r = String "a" (String "b" (String NUL "cd"))) ∧
    (String "a" (String "b" (String NUL "cd")) = EmptyString → r = EmptyString) ∧
    ∀ eval_rec,
      eval_file eval_rec "nul.chai" (fresh disk) =
        do_eval eval_rec r "nul.chai" (emit (E_open "nul.chai" true) (fresh disk)).
Proof.
  exact (load_file_truncates_at_first_NUL "nul.chai"
           (String "a" (String "b" (String NUL "cd"))) (fresh disk) eq_refl).
Defined.

End Demo_runs.

(** ** Relations that every call respects

    A relation between the state before and the state after that is
    reflexive and transitive, and that holds across each elementary step
    of the system, holds across every call, whatever the thread holds
    when the call starts. *)

Section Preorder.
Context `{E : Eval_Engine}.
Variable R : System -> System -> Prop.
Hypothesis R_refl : ∀ s, R s s.
Hypothesis R_trans : ∀ a b c, R a b → R b c → R a c.
Hypothesis R_emit : ∀ e s, (∀ input f, e ≠ E_parse input f) → R s (emit e s).
Hypothesis R_set_mutex : ∀ m s, R s (set_mutex m s).
Hypothesis R_set_use_mutex : ∀ n s, R s (set_use_mutex n s).
Hypothesis R_intern :
  ∀ input filename s, R s (emit (E_parse input filename) (loaded_files_insert filename s)).

Lemma R_unlock_unique (s : System) : R s (unlock_unique s).
Proof. unfold unlock_unique. destruct (mutex s); auto. Qed.

Lemma R_unlock_shared (s : System) : R s (unlock_shared s).
Proof. unfold unlock_shared. destruct (mutex s) as [|[|n]|]; auto. Qed.

Lemma R_lock_shared (s s' : System) : lock_shared s = Some s' → R s s'.
Proof.
  unfold lock_shared. destruct (mutex s); intros H; inversion H; subst; auto.
Qed.

Lemma R_lock_unique (s s' : System) : lock_unique s = Some s' → R s s'.
Proof.
  unfold lock_unique. destruct (mutex s); intros H; inversion H; subst; auto.
Qed.

Lemma R_load_file (filename : string) (s : System) : R s (snd (load_file filename s)).
Proof.
  unfold load_file.
  destruct (files s (c_str filename)); simpl; apply R_emit; intros ? ?; discriminate.
Qed.

Section Level.
Variable eval_rec : script Boxed_Value -> M Boxed_Value.
Hypothesis eval_rec_R : ∀ sc s, R s (snd (eval_rec sc s)).

Lemma R_do_eval (input filename : string) (s : System) :
  R s (snd (do_eval eval_rec input filename s)).
Proof.
  unfold do_eval.
  assert (H1 : R s (emit E_sync_cache s)) by (apply R_emit; intros ? ?; discriminate).
  destruct (lock_unique (emit E_sync_cache s)) as [s2|] eqn:Hlock; [|exact H1].
  pose proof (R_lock_unique _ _ Hlock) as H2.
  pose proof (R_intern input filename s2) as H3.
  assert (H03 : R s (emit (E_parse input filename) (loaded_files_insert filename s2)))
    by eauto.
  destruct (parser_parse input (c_str filename)) as [ast| |e].
  - set (s4 := emit (E_eval_token ast) _).
    assert (H04 : R s s4).
    { eapply R_trans; [exact H03|]. eapply R_trans; [apply R_unlock_unique|].
      apply R_emit. intros ? ?; discriminate. }
    pose proof (eval_rec_R (eval_token ast) s4) as H5.
    destruct (eval_rec (eval_token ast) s4) as [[value|e| |] s5]; simpl in *;
      [| destruct e | |]; simpl;
      first [ exact H5
            | eapply R_trans; [exact H04|]; eapply R_trans; [exact H5|];
              apply R_emit; intros ? ?; discriminate
            | eapply R_trans; [exact H04 | exact H5] ].
  - simpl. eapply R_trans; [exact H03|].
    eapply R_trans; [apply (R_emit E_sync_cache); intros ? ?; discriminate|].
    apply R_unlock_unique.
  - destruct e; simpl;
      (eapply R_trans; [exact H03|]);
      first [ apply R_unlock_unique
            | eapply R_trans; [apply (R_emit E_sync_cache); intros ? ?; discriminate
                              | apply R_unlock_unique] ].
Qed.

Lemma R_eval_file (filename : string) (s : System) :
  R s (snd (eval_file eval_rec filename s)).
Proof.
  unfold eval_file, bind.
  pose proof (R_load_file filename s) as H1.
  destruct (load_file filename s) as [[input|e| |] s1]; simpl in *; try exact H1.
  eapply R_trans; [exact H1 | apply R_do_eval].
Qed.

Lemma R_internal_eval (vals : list Boxed_Value) (s : System) :
  R s (snd (internal_eval eval_rec vals s)).
Proof.
  unfold internal_eval. destruct vals as [|v vals]; [apply R_refl|].
  destruct (boxed_cast_string v); [apply R_do_eval | apply R_refl].
Qed.

Lemma R_use (filename : string) (s : System) : R s (snd (use eval_rec filename s)).
Proof.
  unfold use.
  assert (H1 : R s (lock_recursive s)) by apply R_set_use_mutex.
  destruct (lock_shared (lock_recursive s)) as [s2|] eqn:Hlock; [|exact H1].
  pose proof (R_lock_shared _ _ Hlock) as H2.
  destruct (decide (filename ∉ loaded_files s2)).
  - pose proof (R_eval_file filename (unlock_shared s2)) as H3.
    assert (H03 : R s (snd (eval_file eval_rec filename (unlock_shared s2)))).
    { eapply R_trans; [exact H1|]. eapply R_trans; [exact H2|].
      eapply R_trans; [apply R_unlock_shared | exact H3]. }
    destruct (eval_file eval_rec filename (unlock_shared s2)) as [[v|e| |] s3];
      simpl in *; try exact H03;
      (eapply R_trans; [exact H03 | apply R_set_use_mutex]).
  - simpl. eapply R_trans; [exact H1|]. eapply R_trans; [exact H2|].
    eapply R_trans; [apply (R_emit E_sync_cache); intros ? ?; discriminate|].
    eapply R_trans; [apply R_unlock_shared|].
    apply R_set_use_mutex.
Qed.

Lemma R_bind {A B} (m : M A) (k : A -> M B) (s : System) :
  R s (snd (m s)) → (∀ a s', R s' (snd (k a s'))) → R s (snd (bind m k s)).
Proof.
  intros Hm Hk. unfold bind.
  destruct (m s) as [[a|e| |] s1]; simpl in *; try exact Hm.
  eapply R_trans; [exact Hm | apply Hk].
Qed.

Lemma R_run (sc : script Boxed_Value) : ∀ s, R s (snd (run eval_rec sc s)).
Proof.
  induction sc as [v|e|filename k IH|vals k IH]; intros s; simpl.
  - apply R_refl.
  - apply R_refl.
  - apply R_bind; [apply R_use | intros _; exact IH].
  - apply R_bind; [apply R_internal_eval | exact IH].
Qed.

End Level.

Lemma R_eval_token_n (n : nat) : ∀ sc s, R s (snd (eval_token_n n sc s)).
Proof.
  induction n as [|n IH]; intros sc s; simpl; [apply R_refl|].
  apply R_run. exact IH.
Qed.

Lemma R_perform (c : system_call) (s : System) : R s (perform c s).
Proof.
  destruct c; simpl.
  - apply R_do_eval, R_eval_token_n.
  - apply R_eval_file, R_eval_token_n.
  - apply R_use, R_eval_token_n.
  - apply R_internal_eval, R_eval_token_n.
Qed.

Lemma R_lifetime (calls : list system_call) : ∀ s, R s (lifetime calls s).
Proof.
  induction calls as [|c calls IH]; intros s; simpl; [apply R_refl|].
  eapply R_trans; [apply R_perform | apply IH].
Qed.

End Preorder.

(** ** Further properties of the class *)

Section Further.
Context `{E : Eval_Engine}.

Lemma interned_by_parse_refl (s : System) : interned_by_parse s s.
Proof.
  split; [reflexivity|]. exists []. split; [reflexivity|].
  intros f. split; [intros Hf; left; exact Hf|].
  intros [Hf|Hp]; [exact Hf | inversion Hp].
Qed.

Lemma interned_by_parse_trans (a b c : System) :
  interned_by_parse a b → interned_by_parse b c → interned_by_parse a c.
Proof.
  intros (Hab & new1 & Htr1 & Hin1) (Hbc & new2 & Htr2 & Hin2).
  split; [etrans; eassumption|].
  exists (new2 ++ new1). split; [rewrite Htr2, Htr1, app_assoc; reflexivity|].
  intros f. unfold parsed in *. rewrite Exists_app, Hin2, Hin1. tauto.
Qed.

Lemma interned_by_parse_same (s s' : System) (o : list observation) :
  loaded_files s' = loaded_files s →
  trace s' = o ++ trace s →
  Forall (λ x, ∀ input f, ev x ≠ E_parse input f) o →
  interned_by_parse s s'.
Proof.
  intros Hl Htr Hno. split; [rewrite Hl; reflexivity|].
  exists o. split; [exact Htr|]. intros f. rewrite Hl.
  split; [intros Hf; left; exact Hf|].
  intros [Hf|Hp]; [exact Hf|]. exfalso.
  unfold parsed in Hp. apply Exists_exists in Hp as (x & Hx & input & Hev).
  rewrite Forall_forall in Hno. exact (Hno x Hx input f Hev).
Qed.

Lemma interned_by_parse_emit (e : event) (s : System) :
  (∀ input f, e ≠ E_parse input f) → interned_by_parse s (emit e s).
Proof.
  intros He.
  apply (interned_by_parse_same _ _ [Observe e (loaded_files s) (use_mutex s) (mutex s)]);
    [reflexivity | reflexivity |].
  constructor; [exact He | constructor].
Qed.

Lemma interned_by_parse_intern (input filename : string) (s : System) :
  interned_by_parse s (emit (E_parse input filename) (loaded_files_insert filename s)).
Proof.
  split; [simpl; apply union_subseteq_r|].
  eexists [_]. split; [reflexivity|].
  intros f. simpl. unfold parsed. rewrite elem_of_union, elem_of_singleton, Exists_cons.
  simpl. split.
  - intros [->|Hf]; [right; left; exists input; reflexivity | left; exact Hf].
  - intros [Hf|[(i & Hev)|Hno]]; [right; exact Hf | left; congruence | inversion Hno].
Qed.

(** X1: whatever [mutex] and [use_mutex] the thread holds when it starts,
    no sequence of calls takes a name out of [loaded_files], and the names
    the sequence adds are exactly the names it handed to the parser: a
    name enters the set only together with a parse under that name, and
    every parse interns its name. *)
Theorem names_enter_loaded_files_through_the_parser
    (calls : list system_call) (s : System) :
  interned_by_parse s (lifetime calls s).
Proof.
  apply R_lifetime.
  - apply interned_by_parse_refl.
  - apply interned_by_parse_trans.
  - apply interned_by_parse_emit.
  - intros m s0. apply (interned_by_parse_same _ _ []); [reflexivity ..| constructor].
  - intros n s0. apply (interned_by_parse_same _ _ []); [reflexivity ..| constructor].
  - apply interned_by_parse_intern.
Qed.

Lemma call_ok_balanced {A} (s : System) (out : result Boxed_Value A * System) :
  call_ok s out → balanced s out.
Proof. intros (H1 & H2 & _ & _ & _ & H3 & _). repeat split; assumption. Qed.

Lemma eval_file_balanced (n : nat) (filename : string) (s : System) :
  mutex s = Unlocked → balanced s (eval_file (eval_token_n n) filename s).
Proof.
  intros Hm. destruct (files s (c_str filename)) as [v|] eqn:Hf.
  - rewrite (eval_file_opened _ filename v) by exact Hf.
    exact (call_ok_balanced _ _
             (do_eval_good _ (eval_token_n_good n) (string_of_vector v) filename
                (emit (E_open filename true) s) Hm)).
  - rewrite eval_file_unopened by exact Hf.
    split; [discriminate|]. split; [exact Hm | reflexivity].
Qed.

(** X2: a call of [do_eval], [eval_file], [use] or [internal_eval] that
    starts with [mutex] free never blocks and ends with [mutex] free; when
    it returns or throws, [use_mutex] is held as often as before.  The
    locks are given back on the exception paths too, so over any sequence
    of calls [mutex] stays free. *)
Theorem calls_release_their_locks
    (n : nat) (input filename : string) (vals : list Boxed_Value) (s : System) :
  mutex s = Unlocked →
  balanced s (do_eval (eval_token_n n) input filename s) ∧
  balanced s (eval_file (eval_token_n n) filename s) ∧
  balanced s (use (eval_token_n n) filename s) ∧
  balanced s (internal_eval (eval_token_n n) vals s) ∧
  ∀ calls, mutex (lifetime calls s) = Unlocked.
Proof.
  intros Hm. split; [|split; [|split; [|split]]].
  - apply call_ok_balanced, (do_eval_good _ (eval_token_n_good n)), Hm.
  - apply eval_file_balanced, Hm.
  - apply call_ok_balanced, (use_good _ (eval_token_n_good n)), Hm.
  - apply call_ok_balanced, (internal_eval_good _ (eval_token_n_good n)), Hm.
  - intros calls. apply lifetime_keeps, Hm.
Qed.

(** X3: [eval_file] does not look at [loaded_files]: whether or not the
    name is already in the set, it opens the file and hands its text to
    the parser again.  It interns the name, so a [use] of the same name
    afterwards does a cache sync and returns. *)
Theorem eval_file_reads_again (n : nat) (filename v : string) (s : System) :
  mutex s = Unlocked →
  files s (c_str filename) = Some v →
  let out := eval_file (eval_token_n n) filename s in
  (∃ new,
     trace (snd out) =
       new ++ Observe (E_parse (string_of_vector v) filename)
                ({[filename]} ∪ loaded_files s) (use_mutex s) Write_locked
           :: Observe E_sync_cache (loaded_files s) (use_mutex s) Unlocked
           :: Observe (E_open filename true) (loaded_files s) (use_mutex s) Unlocked
           :: trace s) ∧
  filename ∈ loaded_files (snd out) ∧
  ∀ m s2,
    loaded_files (snd out) ⊆ loaded_files s2 →
    mutex s2 ≠ Write_locked →
    use (eval_token_n m) filename s2 = (Returns tt, cache_sync_only s2).
Proof.
  intros Hm Hf out. subst out.
  rewrite (eval_file_opened _ filename v) by exact Hf.
  destruct (do_eval_spec _ (eval_token_n_good n) (string_of_vector v) filename
              (emit (E_open filename true) s) Hm)
    as (_ & _ & Hl & _ & _ & _ & new & Htr & _).
  simpl in Hl, Htr. rewrite Hm in Htr.
  assert (Hin : filename ∈ loaded_files
                  (snd (do_eval (eval_token_n n) (string_of_vector v) filename
                          (emit (E_open filename true) s)))).
  { apply Hl, elem_of_union_l, elem_of_singleton. reflexivity. }
  split; [exists new; exact Htr|]. split; [exact Hin|].
  intros m s2 Hsub Hm2. apply use_loaded; [apply Hsub, Hin | exact Hm2].
Qed.

(** X4: every text evaluated through [eval], from the host or from a
    script, runs under the one file name [__EVAL__].  The first such
    evaluation interns that name, and from then on [use] of [__EVAL__]
    does a cache sync and returns, whatever file of that name exists.
    [internal_eval] looks at its first argument only. *)
Theorem eval_interns_its_default_name
    (n : nat) (v : Boxed_Value) (rest : list Boxed_Value) (input : string) (s : System) :
  mutex s = Unlocked →
  boxed_cast_string v = Some input →
  let out := internal_eval (eval_token_n n) (v :: rest) s in
  out = eval (eval_token_n n) input s ∧
  "__EVAL__" ∈ loaded_files (snd out) ∧
  ∀ m s2,
    loaded_files (snd out) ⊆ loaded_files s2 →
    mutex s2 ≠ Write_locked →
    use (eval_token_n m) "__EVAL__" s2 = (Returns tt, cache_sync_only s2).
Proof.
  intros Hm Hv out. subst out. unfold internal_eval, eval. rewrite Hv.
  destruct (do_eval_spec _ (eval_token_n_good n) input "__EVAL__" s Hm)
    as (_ & _ & Hl & _).
  assert (Hin : "__EVAL__" ∈ loaded_files (snd (do_eval (eval_token_n n) input "__EVAL__" s))).
  { apply Hl, elem_of_union_l, elem_of_singleton. reflexivity. }
  split; [reflexivity|]. split; [exact Hin|].
  intros m s2 Hsub Hm2. apply use_loaded; [apply Hsub, Hin | exact Hm2].
Qed.

(** X5: the constructor never blocks and leaves [mutex] free; when it
    returns or throws, [use_mutex] is not held.  Whatever the prelude does,
    the name [standard prelude] is in [loaded_files] afterwards, so [use]
    of that name never loads a file. *)
Theorem constructor_interns_the_prelude (n : nat) (fs : string -> option string) :
  let out := ChaiScript_System n fs in
  fst out ≠ Blocks ∧
  mutex (snd out) = Unlocked ∧
  (terminated (fst out) = true → use_mutex (snd out) = 0) ∧
  "standard prelude" ∈ loaded_files (snd out) ∧
  ∀ m s2,
    loaded_files (snd out) ⊆ loaded_files s2 →
    mutex s2 ≠ Write_locked →
    use (eval_token_n m) "standard prelude" s2 = (Returns tt, cache_sync_only s2).
Proof.
  intros out. subst out. unfold ChaiScript_System, build_eval_system.
  destruct (do_eval_spec _ (eval_token_n_good n) chaiscript_prelude "standard prelude"
              (add_all registered_names (add_reserved_words reserved_words (fresh fs)))
              eq_refl) as (Hb & Hm & Hl & _ & _ & Hu & _).
  split; [exact Hb|]. split; [exact Hm|]. split; [exact Hu|].
  match goal with
  | |- ?x ∈ ?X ∧ _ =>
      assert (Hin : x ∈ X) by (apply Hl, elem_of_union_l, elem_of_singleton; reflexivity)
  end.
  split; [exact Hin|].
  intros m s2 Hsub Hm2. apply use_loaded; [apply Hsub, Hin | exact Hm2].
Qed.


(** X7: the typed [eval_file<T>] does to the system exactly what the
    untyped one does; the conversion comes last.  When the file opens the
    name is interned whether or not the conversion succeeds: a result that
    does not convert gives [bad_boxed_cast] after the unit was evaluated,
    and a later [use] of the name does not load it again. *)
Theorem typed_eval_file_converts_last
    {T : Type} (cast : Boxed_Value -> option T)
    (n : nat) (filename v : string) (s : System) :
  mutex s = Unlocked →
  files s (c_str filename) = Some v →
  let out := eval_file (eval_token_n n) filename s in
  let out' := eval_file_as (eval_token_n n) cast filename s in
  snd out' = snd out ∧
  fst out' =
    match fst out with
    | Returns value =>
        match cast value with
        | Some t => Returns t
        | None => Throws bad_boxed_cast
        end
    | Throws e => Throws e
    | Blocks => Blocks
    | Exhausted => Exhausted
    end ∧
  filename ∈ loaded_files (snd out') ∧
  ∀ m s2,
    loaded_files (snd out') ⊆ loaded_files s2 →
    mutex s2 ≠ Write_locked →
    use (eval_token_n m) filename s2 = (Returns tt, cache_sync_only s2).
Proof.
  intros Hm Hf out out'.
  assert (Hstate : snd out' = snd out ∧
            fst out' =
              match fst out with
              | Returns value =>
                  match cast value with
                  | Some t => Returns t
                  | None => Throws bad_boxed_cast
                  end
              | Throws e => Throws e
              | Blocks => Blocks
              | Exhausted => Exhausted
              end).
  { subst out out'. unfold eval_file_as, eval_file, bind, boxed_cast, load_file.
    rewrite Hf.
    destruct (do_eval (eval_token_n n) (string_of_vector v) filename
                (emit (E_open filename true) s)) as [[value|e| |] s1]; simpl;
      try (split; reflexivity).
    destruct (cast value); split; reflexivity. }
  destruct Hstate as [Hsnd Hfst].
  destruct (eval_file_reads_again n filename v s Hm Hf) as (_ & Hin & Huse).
  fold out in Hin, Huse. rewrite <- Hsnd in Hin, Huse.
  split; [exact Hsnd|]. split; [exact Hfst|]. split; [exact Hin | exact Huse].
Qed.

Lemma System_eq (a b : System) :
  loaded_files a = loaded_files b →
  use_mutex a = use_mutex b →
  mutex a = mutex b →
  files a = files b →
  trace a = trace b →
  a = b.
Proof. destruct a, b. simpl. intros -> -> -> -> ->. reflexivity. Qed.

(** X14: the typed [eval<T>] does to the system exactly what the untyped
    [eval] does, and converts its result last: a result that does not
    convert gives [bad_boxed_cast] after the text was evaluated, an
    exception of the evaluation comes through unchanged, and the name
    [__EVAL__] is interned either way. *)
Theorem typed_eval_converts_last
    {T : Type} (cast : Boxed_Value -> option T) (n : nat) (input : string) (s : System) :
  mutex s = Unlocked →
  let out := eval (eval_token_n n) input s in
  let out' := eval_as (eval_token_n n) cast input s in
  snd out' = snd out ∧
  fst out' =
    match fst out with
    | Returns value =>
        match cast value with
        | Some t => Returns t
        | None => Throws bad_boxed_cast
        end
    | Throws e => Throws e
    | Blocks => Blocks
    | Exhausted => Exhausted
    end ∧
  "__EVAL__" ∈ loaded_files (snd out').
Proof.
  intros Hm out out'.
  destruct (do_eval_spec _ (eval_token_n_good n) input "__EVAL__" s Hm)
    as (_ & _ & Hl & _).
  assert (Hin : "__EVAL__" ∈ loaded_files (snd out)).
  { apply Hl, elem_of_union_l, elem_of_singleton. reflexivity. }
  subst out out'. unfold eval_as, eval, bind, boxed_cast in *.
  destruct (do_eval (eval_token_n n) input "__EVAL__" s) as [[value|e| |] s1]; simpl in *;
    try (repeat split; solve [reflexivity | exact Hin]).
  destruct (cast value); repeat split; solve [reflexivity | exact Hin].
Qed.

(** X8: a [use] of a name whose file cannot be opened throws the
    [runtime_error] of [load_file] and leaves the system as it found it:
    [loaded_files] and both mutexes are unchanged, and nothing was done but
    the failed open. *)
Theorem use_of_unopened_file_changes_nothing
    (eval_rec : script Boxed_Value -> M Boxed_Value) (filename : string) (s : System) :
  mutex s = Unlocked →
  filename ∉ loaded_files s →
  files s (c_str filename) = None →
  use eval_rec filename s =
    (Throws (runtime_error ("Can not open: " +:+ filename)),
     Build_System (loaded_files s) (use_mutex s) (mutex s) (files s)
       (Observe (E_open filename false) (loaded_files s) (S (use_mutex s)) Unlocked
          :: trace s)).
Proof.
  intros Hm Hnin Hf. rewrite (use_absent _ _ _ Hm Hnin).
  rewrite eval_file_unopened by exact Hf.
  f_equal. apply System_eq; try reflexivity.
  simpl. rewrite Hm. reflexivity.
Qed.

(** X9: when the parser returns [false] on the text of a file, [use]
    returns normally without the evaluator being called, and the name
    counts as loaded: the system ends with the name interned, both mutexes
    as before, and the second cache sync made under the unique lock. *)
Theorem use_of_unit_with_nothing_to_evaluate
    (eval_rec : script Boxed_Value -> M Boxed_Value) (filename v : string) (s : System) :
  mutex s = Unlocked →
  filename ∉ loaded_files s →
  files s (c_str filename) = Some v →
  parser_parse (string_of_vector v) (c_str filename) = Parse_false →
  use eval_rec filename s =
    (Returns tt,
     Build_System ({[filename]} ∪ loaded_files s) (use_mutex s) Unlocked (files s)
       (Observe E_sync_cache ({[filename]} ∪ loaded_files s) (S (use_mutex s)) Write_locked
        :: Observe (E_parse (string_of_vector v) filename) ({[filename]} ∪ loaded_files s)
             (S (use_mutex s)) Write_locked
        :: Observe E_sync_cache (loaded_files s) (S (use_mutex s)) Unlocked
        :: Observe (E_open filename true) (loaded_files s) (S (use_mutex s)) Unlocked
        :: trace s)).
Proof.
  intros Hm Hnin Hf Hp. rewrite (use_absent _ _ _ Hm Hnin).
  rewrite (eval_file_opened _ filename v) by exact Hf.
  rewrite do_eval_Parse_false by (try exact Hp; exact Hm).
  f_equal. apply System_eq; try reflexivity.
  simpl. rewrite Hm. reflexivity.
Qed.

(** X10: reading back what [load_file] returned gives the same text: a
    file that holds the result of an earlier [load_file] is returned
    whole, and the result is never longer than the file it came from. *)
Theorem load_file_result_reads_back
    (filename filename' v r : string) (s s' : System) :
  files s (c_str filename) = Some v →
  fst (load_file filename s) = Returns r →
  files s' (c_str filename') = Some r →
  fst (load_file filename' s') = Returns r ∧ String.length r ≤ String.length v.
Proof.
  intros Hf Hr Hf'. unfold load_file in *. rewrite Hf in Hr. rewrite Hf'. simpl in *.
  inversion Hr as [Hr']. rewrite !string_of_vector_c_str.
  rewrite (c_str_id (c_str v)) by apply c_str_nul_free.
  split; [reflexivity|].
  clear. induction v as [|c v IH]; simpl; [lia|].
  destruct (Ascii.eqb c NUL); simpl; lia.
Qed.

(** *** No file is loaded twice *)

Lemma opens_cons (f : string) (o : observation) (l : list observation) :
  opens f (o :: l) = (if opened f (ev o) then 1 else 0) + opens f l.
Proof. unfold opens. simpl. destruct (opened f (ev o)); reflexivity. Qed.

Lemma opens_app (f : string) (l1 l2 : list observation) :
  opens f (l1 ++ l2) = opens f l1 + opens f l2.
Proof.
  induction l1 as [|o l1 IH]; [reflexivity|].
  change ((o :: l1) ++ l2) with (o :: (l1 ++ l2)). rewrite !opens_cons, IH. lia.
Qed.

Lemma opens_ok_zero (s : System) (f : string) (new : list observation) :
  Forall (observation_ok s) new → f ∈ loaded_files s → opens f new = 0.
Proof.
  intros Hnew Hf. induction Hnew as [|o l Ho _ IH]; [reflexivity|].
  rewrite opens_cons, IH. destruct Ho as (Hsub & _ & Ho).
  destruct (ev o) as [| | |g [|]| |]; simpl; try reflexivity.
  destruct (String.eqb_spec g f) as [->|_]; [|reflexivity].
  destruct Ho as (Hg & _). exfalso. apply Hg, Hsub, Hf.
Qed.

Lemma loads_once_intro {A} (s : System) (out : result Boxed_Value A * System)
    (new : list observation) :
  call_ok s out →
  trace (snd out) = new ++ trace s →
  (∀ f, opens f new ≤ 1 ∧ (opens f new = 1 → f ∈ loaded_files (snd out))) →
  loads_once s (snd out).
Proof.
  intros (_ & Hm & Hl & _ & Hu & _ & new' & Htr' & Hnew') Htr Hcount.
  rewrite Htr in Htr'. apply app_inv_tail in Htr'. subst new'.
  split; [exact Hm|]. split; [exact Hl|]. split; [exact Hu|].
  exists new. split; [exact Htr|]. split; [exact Hnew' | exact Hcount].
Qed.

Lemma loads_once_refl (s : System) : mutex s = Unlocked → loads_once s s.
Proof.
  intros Hm. split; [exact Hm|]. split; [reflexivity|]. split; [lia|].
  exists []. split; [reflexivity|]. split; [constructor|].
  intros f. unfold opens. simpl. split; [lia | discriminate].
Qed.

Lemma loads_once_trans (a b c : System) :
  loads_once a b → loads_once b c → loads_once a c.
Proof.
  intros (_ & Hl1 & Hu1 & new1 & Htr1 & Hok1 & Hc1) (Hm2 & Hl2 & Hu2 & new2 & Htr2 & Hok2 & Hc2).
  split; [exact Hm2|]. split; [etrans; eassumption|]. split; [lia|].
  exists (new2 ++ new1). split; [rewrite Htr2, Htr1, app_assoc; reflexivity|].
  split.
  - apply Forall_app. split; [|exact Hok1].
    revert Hok2. apply Forall_observation_ok_weaken; assumption.
  - intros f. rewrite opens_app.
    destruct (Hc1 f) as [Hle1 Hin1]. destruct (Hc2 f) as [Hle2 Hin2].
    destruct (decide (opens f new1 = 1)) as [H1|H1].
    + rewrite (opens_ok_zero b f new2 Hok2 (Hin1 H1)).
      split; [lia|]. intros _. apply Hl2, Hin1, H1.
    + split; [lia|]. intros H. apply Hin2. lia.
Qed.

Section Once_level.
Variable eval_rec : script Boxed_Value -> M Boxed_Value.
Hypothesis eval_rec_good : ∀ sc, good (eval_rec sc).
Hypothesis eval_rec_once : ∀ sc s, mutex s = Unlocked → loads_once s (snd (eval_rec sc s)).

Lemma do_eval_does_not_reopen (input filename : string) (s : System)
    (new : list observation) :
  mutex s = Unlocked →
  trace (snd (do_eval eval_rec input filename s)) = new ++ trace s →
  opens filename new = 0.
Proof.
  intros Hm Htr.
  destruct (do_eval_spec _ eval_rec_good input filename s Hm)
    as (_ & _ & _ & _ & _ & _ & new' & Htr' & Hnew').
  rewrite Htr', app_assoc in Htr. apply app_inv_tail in Htr. subst new.
  rewrite opens_app, (opens_ok_zero _ filename new' Hnew'); [reflexivity|].
  simpl. apply elem_of_union_l, elem_of_singleton. reflexivity.
Qed.

Lemma do_eval_once (input filename : string) (s : System) :
  mutex s = Unlocked → loads_once s (snd (do_eval eval_rec input filename s)).
Proof.
  intros Hm.
  pose proof (do_eval_good _ eval_rec_good input filename s Hm) as Hok.
  assert (Hcount : ∃ new,
            trace (snd (do_eval eval_rec input filename s)) = new ++ trace s ∧
            ∀ f, opens f new ≤ 1 ∧
                 (opens f new = 1 →
                  f ∈ loaded_files (snd (do_eval eval_rec input filename s)))).
  { destruct (parser_parse input (c_str filename)) as [ast| |e] eqn:Hp.
    - rewrite (do_eval_Parse_true _ _ _ ast _ Hm Hp).
      pose proof (eval_rec_once (eval_token ast) (at_eval_token input filename ast s)
                    eq_refl) as (_ & _ & _ & new5 & Htr5 & _ & Hc5).
      destruct (eval_rec (eval_token ast) (at_eval_token input filename ast s))
        as [r s5].
      simpl in Htr5, Hc5.
      set (three := [Observe (E_eval_token ast) ({[filename]} ∪ loaded_files s)
                       (use_mutex s) Unlocked;
                     Observe (E_parse input filename) ({[filename]} ∪ loaded_files s)
                       (use_mutex s) Write_locked;
                     Observe E_sync_cache (loaded_files s) (use_mutex s) (mutex s)]).
      assert (Htr5' : trace s5 = (new5 ++ three) ++ trace s)
        by (rewrite Htr5, <- app_assoc; reflexivity).
      assert (Hfin : ∀ f, opens f (new5 ++ three) = opens f new5).
      { intros f. rewrite opens_app. unfold opens at 2. simpl. lia. }
      assert (Hplain : ∃ new,
                trace s5 = new ++ trace s ∧
                ∀ f, opens f new ≤ 1 ∧ (opens f new = 1 → f ∈ loaded_files s5)).
      { exists (new5 ++ three). split; [exact Htr5'|].
        intros f. rewrite Hfin. apply Hc5. }
      assert (Hsync : ∃ new,
                trace (emit E_sync_cache s5) = new ++ trace s ∧
                ∀ f, opens f new ≤ 1 ∧
                     (opens f new = 1 → f ∈ loaded_files (emit E_sync_cache s5))).
      { exists (Observe E_sync_cache (loaded_files s5) (use_mutex s5) (mutex s5)
                  :: new5 ++ three).
        split; [simpl; rewrite Htr5'; reflexivity|].
        intros f. rewrite opens_cons, Hfin. simpl. apply Hc5. }
      destruct r as [value|e| |]; [| destruct e | |]; simpl;
        first [exact Hsync | exact Hplain].
    - rewrite (do_eval_Parse_false _ _ _ _ Hm Hp). simpl. rewrite Hm.
      eexists [_; _; _]. split; [reflexivity|].
      intros f. unfold opens. simpl. split; [lia | discriminate].
    - rewrite (do_eval_Parse_throws _ _ _ e _ Hm Hp).
      destruct e; simpl; rewrite Hm;
        first [ eexists [_; _; _]; split; [reflexivity|]
              | eexists [_; _]; split; [reflexivity|] ];
        intros f; unfold opens; simpl; (split; [lia | discriminate]). }
  destruct Hcount as (new & Htr & Hc).
  exact (loads_once_intro s _ new Hok Htr Hc).
Qed.

Lemma use_once (filename : string) (s : System) :
  mutex s = Unlocked → loads_once s (snd (use eval_rec filename s)).
Proof.
  intros Hm.
  pose proof (use_good _ eval_rec_good filename s Hm) as Hok.
  assert (Hcount : ∃ new,
            trace (snd (use eval_rec filename s)) = new ++ trace s ∧
            ∀ f, opens f new ≤ 1 ∧
                 (opens f new = 1 → f ∈ loaded_files (snd (use eval_rec filename s)))).
  { destruct (decide (filename ∈ loaded_files s)) as [Hin|Hnin].
    - rewrite use_loaded by (try exact Hin; rewrite Hm; discriminate).
      eexists [_]. split; [reflexivity|].
      intros f. unfold opens. simpl. split; [lia | discriminate].
    - rewrite (use_absent _ _ _ Hm Hnin).
      destruct (files s (c_str filename)) as [v|] eqn:Hf.
      + rewrite (eval_file_opened _ filename v) by exact Hf.
        pose proof (do_eval_once (string_of_vector v) filename
                      (emit (E_open filename true) (lock_recursive s)) Hm)
          as (_ & _ & _ & newd & Htrd & _ & Hcd).
        pose proof (do_eval_does_not_reopen (string_of_vector v) filename
                      (emit (E_open filename true) (lock_recursive s)) newd Hm Htrd)
          as Hzero.
        destruct (do_eval_spec _ eval_rec_good (string_of_vector v) filename
                    (emit (E_open filename true) (lock_recursive s)) Hm)
          as (_ & _ & Hl & _).
        destruct (do_eval eval_rec (string_of_vector v) filename
                    (emit (E_open filename true) (lock_recursive s))) as [r s3].
        simpl in Htrd, Hcd, Hl.
        assert (Hfin : ∃ new,
                  trace s3 = new ++ trace s ∧
                  ∀ f, opens f new ≤ 1 ∧ (opens f new = 1 → f ∈ loaded_files s3)).
        { exists (newd ++ [Observe (E_open filename true) (loaded_files s)
                             (S (use_mutex s)) (mutex s)]).
          split; [rewrite Htrd, <- app_assoc; reflexivity|].
          intros f. rewrite opens_app, opens_cons. simpl.
          change (opens f []) with 0.
          destruct (String.eqb_spec filename f) as [<-|Hne].
          - rewrite Hzero. split; [lia|]. intros _.
            apply Hl, elem_of_union_l, elem_of_singleton. reflexivity.
          - destruct (Hcd f) as [Hle Hin]. split; [lia|]. intros H. apply Hin. lia. }
        destruct r; simpl; exact Hfin.
      + rewrite eval_file_unopened by exact Hf. simpl.
        eexists [_]. split; [reflexivity|].
        intros f. unfold opens. simpl. split; [lia | discriminate]. }
  destruct Hcount as (new & Htr & Hc).
  exact (loads_once_intro s _ new Hok Htr Hc).
Qed.

Lemma bind_once {A B} (m : M A) (k : A -> M B) (s : System) :
  mutex s = Unlocked →
  loads_once s (snd (m s)) →
  (∀ a s', mutex s' = Unlocked → loads_once s' (snd (k a s'))) →
  loads_once s (snd (bind m k s)).
Proof.
  intros Hm H1 Hk. unfold bind.
  destruct (m s) as [[a|e| |] s1]; simpl in *; try exact H1.
  eapply loads_once_trans; [exact H1|]. apply Hk. apply H1.
Qed.

Lemma internal_eval_once (vals : list Boxed_Value) (s : System) :
  mutex s = Unlocked → loads_once s (snd (internal_eval eval_rec vals s)).
Proof.
  intros Hm. unfold internal_eval.
  destruct vals as [|v vals]; [apply loads_once_refl, Hm|].
  destruct (boxed_cast_string v); [apply do_eval_once, Hm | apply loads_once_refl, Hm].
Qed.

Lemma run_once (sc : script Boxed_Value) :
  ∀ s, mutex s = Unlocked → loads_once s (snd (run eval_rec sc s)).
Proof.
  induction sc as [v|e|filename k IH|vals k IH]; intros s Hm; simpl.
  - apply loads_once_refl, Hm.
  - apply loads_once_refl, Hm.
  - apply bind_once; [exact Hm | apply use_once, Hm | intros _; exact IH].
  - apply bind_once; [exact Hm | apply internal_eval_once, Hm | exact IH].
Qed.

End Once_level.

Lemma eval_token_n_once (n : nat) :
  ∀ sc s, mutex s = Unlocked → loads_once s (snd (eval_token_n n sc s)).
Proof.
  induction n as [|n IH]; intros sc s Hm; simpl.
  - apply loads_once_refl, Hm.
  - apply run_once; [apply eval_token_n_good | exact IH | exact Hm].
Qed.

Lemma lifetime_once (calls : list system_call) :
  ∀ s, mutex s = Unlocked →
       forallb through_use calls = true →
       loads_once s (lifetime calls s).
Proof.
  induction calls as [|c calls IH]; intros s Hm Hcalls; simpl.
  - apply loads_once_refl, Hm.
  - simpl in Hcalls. apply andb_true_iff in Hcalls as [Hc Hcalls].
    assert (H1 : loads_once s (perform c s)).
    { destruct c as [n input filename|n filename|n filename|n vals]; simpl.
      - apply do_eval_once; [apply eval_token_n_good | apply eval_token_n_once | exact Hm].
      - discriminate Hc.
      - apply use_once; [apply eval_token_n_good | apply eval_token_n_once | exact Hm].
      - apply internal_eval_once;
          [apply eval_token_n_good | apply eval_token_n_once | exact Hm]. }
    eapply loads_once_trans; [exact H1|]. apply IH; [apply H1 | exact Hcalls].
Qed.

Lemma path_opens_of_names (path : string) (l : list observation) :
  opened_names_hold_no_NUL l → path_opens path l = opens path l.
Proof.
  unfold opened_names_hold_no_NUL, path_opens, opens.
  induction 1 as [|o l Ho _ IH]; [reflexivity|].
  simpl. destruct (ev o) as [| | |g [|]| |]; simpl; try exact IH.
  rewrite (c_str_id g (Ho g eq_refl)).
  destruct (String.eqb g path); simpl; rewrite IH; reflexivity.
Qed.

(** X11: over any sequence of [do_eval], [use] and [internal_eval] calls,
    with all the [use] and [eval] calls their scripts make, no file is
    opened with success more than once under the same name; a name that
    was already in [loaded_files] is not opened at all, and every name
    whose file was opened is in [loaded_files] at the end.  The name is
    the whole string and the path is the name up to its first NUL byte:
    when the names that were opened hold no NUL byte, no path is opened
    with success more than once either. *)
Theorem no_file_is_loaded_twice (calls : list system_call) (s : System) :
  mutex s = Unlocked →
  forallb through_use calls = true →
  ∃ new,
    trace (lifetime calls s) = new ++ trace s ∧
    (∀ f,
       opens f new ≤ 1 ∧
       (opens f new = 1 → f ∈ loaded_files (lifetime calls s)) ∧
       (f ∈ loaded_files s → opens f new = 0)) ∧
    (opened_names_hold_no_NUL new →
     ∀ path,
       path_opens path new ≤ 1 ∧
       (path_opens path new = 1 → path ∈ loaded_files (lifetime calls s)) ∧
       (path ∈ loaded_files s → path_opens path new = 0)).
Proof.
  intros Hm Hcalls.
  destruct (lifetime_once calls s Hm Hcalls) as (_ & _ & _ & new & Htr & Hok & Hc).
  assert (Hnames : ∀ f,
            opens f new ≤ 1 ∧
            (opens f new = 1 → f ∈ loaded_files (lifetime calls s)) ∧
            (f ∈ loaded_files s → opens f new = 0)).
  { intros f. destruct (Hc f) as [Hle Hin].
    split; [exact Hle|]. split; [exact Hin|]. apply opens_ok_zero, Hok. }
  exists new. split; [exact Htr|]. split; [exact Hnames|].
  intros Hnul path. rewrite (path_opens_of_names path new Hnul). apply Hnames.
Qed.

End Further.

(** *** [debug_print] *)

Section Debug_print_facts.
Variable token_type_to_string : Z -> string.

Lemma Token_ind' (P : Token -> Prop) :
  (∀ identifier text line column children,
     Forall P children → P (Build_Token identifier text line column children)) →
  ∀ t, P t.
Proof.
  intros H. fix IH 1. intros [identifier text line column children].
  apply H. induction children as [|c cs IHcs]; constructor; [apply IH | exact IHcs].
Qed.

Lemma append_cons (a : ascii) (p x : string) : String a p +:+ x = String a (p +:+ x).
Proof. reflexivity. Qed.

Lemma append_assoc (p q x : string) : (p +:+ q) +:+ x = p +:+ (q +:+ x).
Proof.
  induction p as [|a p IH]; [reflexivity|]. rewrite !append_cons, IH. reflexivity.
Qed.

Lemma prefix_append (p x : string) : String.prefix p (p +:+ x) = true.
Proof.
  induction p as [|a p IH]; [destruct x; reflexivity|].
  rewrite append_cons. simpl. destruct (ascii_dec a a); [exact IH | contradiction].
Qed.

(** X12: [debug_print] writes one record for every node of the tree, the
    root first. *)
Theorem debug_print_writes_one_record_per_node (t : Token) (prepend : string) :
  length (debug_print token_type_to_string t prepend) = Token_size t ∧
  ∃ rest,
    debug_print token_type_to_string t prepend =
      match t with
      | Build_Token identifier text line column _ =>
          debug_line token_type_to_string prepend identifier text line column
      end :: rest.
Proof.
  split; [|destruct t; simpl; eexists; reflexivity].
  revert prepend. induction t as [identifier text line column children IH] using Token_ind'.
  intros prepend. simpl. f_equal.
  induction IH as [|c cs Hc _ IHcs]; [reflexivity|].
  simpl. rewrite length_app, Hc, IHcs. reflexivity.
Qed.

Lemma append_nil_r (p : string) : p +:+ EmptyString = p.
Proof.
  induction p as [|a p IH]; [reflexivity|]. rewrite append_cons, IH. reflexivity.
Qed.

(** X13: the indentation is carried down the tree: printing with the
    prefix [p] followed by [q] gives the records printed with [q], each
    with [p] in front, and every record of a call starts with the prefix
    the call was given.  After the record of the root, what a call writes
    is, child by child, what each child writes on its own with [p] and two
    spaces put in front of every record: all the records after the first
    start with [p] and two spaces. *)
Theorem debug_print_carries_the_prefix (t : Token) (p q : string) :
  debug_print token_type_to_string t (p +:+ q)
    = map (String.append p) (debug_print token_type_to_string t q) ∧
  Forall (λ r, String.prefix p r = true) (debug_print token_type_to_string t p) ∧
  List.tl (debug_print token_type_to_string t p)
    = flat_map (λ child,
                  map (String.append (p +:+ "  "))
                    (debug_print token_type_to_string child EmptyString))
        (children_of t) ∧
  Forall (λ r, String.prefix (p +:+ "  ") r = true)
    (List.tl (debug_print token_type_to_string t p)).
Proof.
  assert (Hhom : ∀ t p q,
            debug_print token_type_to_string t (p +:+ q)
            = map (String.append p) (debug_print token_type_to_string t q)).
  { clear. intros t.
    induction t as [identifier text line column children IH] using Token_ind'.
    intros p q. simpl. f_equal.
    - unfold debug_line. rewrite append_assoc. reflexivity.
    - induction IH as [|c cs Hc _ IHcs]; [reflexivity|].
      simpl. rewrite map_app, <- IHcs, <- Hc, append_assoc. reflexivity. }
  assert (Hpre : ∀ t p,
            Forall (λ r, String.prefix p r = true) (debug_print token_type_to_string t p)).
  { clear -Hhom. intros t p.
    induction t as [identifier text line column children IH] using Token_ind'.
    simpl. constructor; [apply prefix_append|].
    induction IH as [|c cs _ _ IHcs]; [constructor|].
    simpl. apply Forall_app. split; [|exact IHcs].
    rewrite Hhom. apply Forall_map, Forall_forall. intros r _. apply prefix_append. }
  assert (Htl : List.tl (debug_print token_type_to_string t p)
                = flat_map (λ child,
                              map (String.append (p +:+ "  "))
                                (debug_print token_type_to_string child EmptyString))
                    (children_of t)).
  { destruct t as [identifier text line column children]. simpl.
    apply flat_map_ext. intros child.
    rewrite <- Hhom, append_nil_r. reflexivity. }
  split; [apply Hhom|]. split; [apply Hpre|]. split; [exact Htl|].
  rewrite Htl. clear Htl.
  induction (children_of t) as [|child cs IH]; [constructor|].
  simpl. apply Forall_app. split; [|exact IH].
  apply Forall_map, Forall_forall. intros r _. apply prefix_append.
Qed.

End Debug_print_facts.

(** ** The further properties on the concrete engines *)

Section Further_runs.

(** X2 on a first load of [a.chai]. *)
Lemma calls_release_their_locks_witness :
  balanced (fresh Demo.disk)
    (use (E := Demo.engine) (eval_token_n 1) "a.chai" (fresh Demo.disk)).
Proof.
  exact (proj1 (proj2 (proj2
           (calls_release_their_locks (E := Demo.engine) 1 "hello" "a.chai"
              [Demo.Str "hello"] (fresh Demo.disk) eq_refl)))).
Defined.

(** X3 on a system in which [a.chai] is already loaded. *)
Lemma eval_file_reads_again_witness :
  "a.chai" ∈
    loaded_files
      (snd (eval_file (E := Demo.engine) (eval_token_n 1) "a.chai"
              (snd (use (eval_token_n 1) "a.chai" (fresh Demo.disk))))).
Proof.
  exact (proj1 (proj2
           (eval_file_reads_again (E := Demo.engine) 1 "a.chai" "hello"
              (snd (use (eval_token_n 1) "a.chai" (fresh Demo.disk)))
              eq_refl eq_refl))).
Defined.

(** X4 on a call of [eval] with one string. *)
Lemma eval_interns_its_default_name_witness :
  "__EVAL__" ∈
    loaded_files
      (snd (internal_eval (E := Demo.engine) (eval_token_n 1) [Demo.Str "hello"]
              (fresh Demo.disk))).
Proof.
  exact (proj1 (proj2
           (eval_interns_its_default_name (E := Demo.engine) 1 (Demo.Str "hello") []
              "hello" (fresh Demo.disk) eq_refl eq_refl))).
Defined.


(** X7 on a file whose result is a string, asked for as a number. *)
Lemma typed_eval_file_converts_last_witness :
  fst (eval_file_as (E := Demo_further.engine) (eval_token_n 1) Demo_further.cast_int
         "a.chai" (fresh Demo_further.disk))
  = Throws bad_boxed_cast ∧
  "a.chai" ∈
    loaded_files
      (snd (eval_file_as (E := Demo_further.engine) (eval_token_n 1)
              Demo_further.cast_int "a.chai" (fresh Demo_further.disk))).
Proof.
  pose proof (typed_eval_file_converts_last (E := Demo_further.engine)
                Demo_further.cast_int 1 "a.chai" "hello" (fresh Demo_further.disk)
                eq_refl eq_refl) as (_ & Hfst & Hin & _).
  split; [exact Hfst | exact Hin].
Defined.

(** X14 on a text whose result is a string, asked for as a number. *)
Lemma typed_eval_converts_last_witness :
  fst (eval_as (E := Demo_further.engine) (eval_token_n 1) Demo_further.cast_int
         "hello" (fresh Demo_further.disk))
  = Throws bad_boxed_cast.
Proof.
  exact (proj1 (proj2
           (typed_eval_converts_last (E := Demo_further.engine) Demo_further.cast_int
              1 "hello" (fresh Demo_further.disk) eq_refl))).
Defined.

(** X8 on a path that is not on the disk. *)
Lemma use_of_unopened_file_changes_nothing_witness :
  use (E := Demo.engine) (eval_token_n 1) "missing.chai" (fresh Demo.disk)
  = (Throws (runtime_error "Can not open: missing.chai"),
     Build_System ∅ 0 Unlocked Demo.disk
       [Observe (E_open "missing.chai" false) ∅ 1 Unlocked]).
Proof.
  exact (use_of_unopened_file_changes_nothing (E := Demo.engine) (eval_token_n 1)
           "missing.chai" (fresh Demo.disk) eq_refl (not_elem_of_empty _) eq_refl).
Defined.

(** X9 on an empty file. *)
Lemma use_of_unit_with_nothing_to_evaluate_witness :
  fst (use (E := Demo_further.engine) (eval_token_n 0) "empty.chai"
         (fresh Demo_further.disk))
  = Returns tt.
Proof.
  exact (f_equal fst
           (use_of_unit_with_nothing_to_evaluate (E := Demo_further.engine)
              (eval_token_n 0) "empty.chai" EmptyString (fresh Demo_further.disk)
              eq_refl (not_elem_of_empty _) eq_refl eq_refl)).
Defined.

(** X10 on the file with a NUL byte, read back from a file that holds
    what was returned. *)
Lemma load_file_result_reads_back_witness :
  fst (load_file (E := Demo_further.engine) "ab.chai" (fresh Demo_further.disk))
  = Returns "ab" ∧
  String.length "ab" ≤ String.length (String "a" (String "b" (String NUL "cd"))).
Proof.
  exact (load_file_result_reads_back (E := Demo_further.engine) "nul.chai" "ab.chai"
           (String "a" (String "b" (String NUL "cd"))) "ab"
           (fresh (E := Demo_further.engine) Demo.disk) (fresh Demo_further.disk)
           eq_refl eq_refl eq_refl).
Defined.

(** X11 on three calls that all ask for [a.chai]. *)
Lemma no_file_is_loaded_twice_witness :
  ∃ new,
    trace (lifetime (E := Demo.engine)
             [Use 1 "a.chai"; Use 1 "a.chai"; Do_eval 2 "use a.chai" "__EVAL__"]
             (fresh Demo.disk))
      = new ++ [] ∧
    (∀ f,
       opens f new ≤ 1 ∧
       (opens f new = 1 →
        f ∈ loaded_files
              (lifetime (E := Demo.engine)
                 [Use 1 "a.chai"; Use 1 "a.chai"; Do_eval 2 "use a.chai" "__EVAL__"]
                 (fresh Demo.disk))) ∧
       (f ∈ (∅ : gset string) → opens f new = 0)) ∧
    (opened_names_hold_no_NUL new →
     ∀ path,
       path_opens path new ≤ 1 ∧
       (path_opens path new = 1 →
        path ∈ loaded_files
                 (lifetime (E := Demo.engine)
                    [Use 1 "a.chai"; Use 1 "a.chai"; Do_eval 2 "use a.chai" "__EVAL__"]
                    (fresh Demo.disk))) ∧
       (path ∈ (∅ : gset string) → path_opens path new = 0)).
Proof.
  exact (no_file_is_loaded_twice (E := Demo.engine)
           [Use 1 "a.chai"; Use 1 "a.chai"; Do_eval 2 "use a.chai" "__EVAL__"]
           (fresh Demo.disk) eq_refl eq_refl).
Defined.

(** The names opened in that run hold no NUL byte, and the one path they
    stand for was opened once. *)
Example no_file_is_loaded_twice_run :
  let new := trace (lifetime (E := Demo.engine)
                      [Use 1 "a.chai"; Use 1 "a.chai"; Do_eval 2 "use a.chai" "__EVAL__"]
                      (fresh Demo.disk)) in
  opened_names_hold_no_NUL new ∧ path_opens "a.chai" new = 1.
Proof.
  split; [|vm_compute; reflexivity].
  unfold opened_names_hold_no_NUL. apply Forall_forall. intros o Ho g Hg.
  assert (Hall : forallb (λ o, match ev o with
                               | E_open g true => nul_free g
                               | _ => true
                               end)
                   (trace (lifetime (E := Demo.engine)
                             [Use 1 "a.chai"; Use 1 "a.chai";
                              Do_eval 2 "use a.chai" "__EVAL__"]
                             (fresh Demo.disk))) = true)
    by (vm_compute; reflexivity).
  rewrite forallb_forall in Hall. apply list_elem_of_In in Ho.
  specialize (Hall o Ho). rewrite Hg in Hall. exact Hall.
Qed.

End Further_runs.
